(** * Wave attenuation environments (flow/envs/loop/wave_attenuation.py)

    A shallow embedding of the reinforcement-learning environment variants
    of [wave_attenuation.py] and the properties of their reward, observation,
    action and bookkeeping code.

    Python floats are idealised as real numbers ([R]); Python exceptions are
    the [Raise] results of a small error monad; the simulator's vehicle
    registry and the scenario, which the file only queries, are records of
    the queried accessors. *)

From Stdlib Require Import Reals Lra ZArith Lia List String Ascii.
From stdpp Require Import base option list strings gmap.

Import ListNotations.

(** ** Exceptions and the error monad *)

Inductive exn : Type :=
| KeyError (key : string)
| IndexError
| ValueError
| ZeroDivisionError
| TypeError
| AssertionError.

Inductive result (A : Type) : Type :=
| Ok (a : A)
| Raise (e : exn).

Arguments Ok {A} a.
Arguments Raise {A} e.

Definition bind {A B : Type} (m : result A) (k : A -> result B) : result B :=
  match m with
  | Ok a => k a
  | Raise e => Raise e
  end.

Notation "'let*' x ':=' m 'in' k" := (bind m (fun x => k))
  (at level 10, x name, m at level 100, k at level 200).

Definition raises {A : Type} (m : result A) : Prop :=
  exists e, m = Raise e.

(** [d[k]] on a Python dict. *)
Definition getitem {V : Type} (d : gmap string V) (k : string) : result V :=
  match d !! k with
  | Some v => Ok v
  | None => Raise (KeyError k)
  end.

(** [l[i]] on a Python list, for a non-negative index. *)
Definition index {A : Type} (l : list A) (i : nat) : result A :=
  match l !! i with
  | Some a => Ok a
  | None => Raise IndexError
  end.

(** ** Numbers *)

Open Scope R_scope.

Definition Rltb (x y : R) : bool := if Rlt_dec x y then true else false.

Definition Req_b (x y : R) : bool := if Req_dec_T x y then true else false.

(** Python's [x / y] on floats. *)
Definition truediv (x y : R) : result R :=
  if Req_b y 0 then Raise ZeroDivisionError else Ok (x / y).

Definition sum (l : list R) : R := fold_right Rplus 0 l.

(** [np.mean]; numpy's mean of an empty array is [nan], which the reals do
    not have, so a statement on the value of a mean takes a non-empty
    list. *)
Definition mean (l : list R) : R := sum l / INR (length l).

(** [np.std]: the square root of the mean squared deviation. *)
Definition std (l : list R) : R :=
  let m := mean l in
  sqrt (mean (map (fun x => Rsqr (Rabs (x - m))) l)).

(** [np.clip] *)
Definition clip (x lo hi : R) : R := Rmin (Rmax x lo) hi.

(** ** Values stored in [env_params.additional_params] *)

Inductive pyval : Type :=
| VNum (x : R)
| VList (xs : list Z).

(** [ADDITIONAL_ENV_PARAMS], in the dict's insertion order. *)
Definition ADDITIONAL_ENV_PARAMS : list (string * pyval) :=
  [ ("max_accel"%string, VNum 3);
    ("max_decel"%string, VNum 5);
    ("ring_length"%string, VList [260%Z; 260%Z]) ].

Definition keys {V : Type} (d : list (string * V)) : list string := map fst d.

(** ** The external collaborators *)

(** The vehicle registry ([self.vehicles]), as the accessors queried here. *)
Record Vehicles : Type := {
  get_ids : list string;
  get_rl_ids : list string;
  get_human_ids : list string;
  num_vehicles : nat;
  num_rl_vehicles : nat;
  get_speed : string -> R;
  get_headway : string -> R;
  get_length : string -> R;
  get_leader : string -> option string;
  get_follower : string -> option string
}.

(** The part of the environment object that the methods read. *)
Record Env : Type := {
  additional_params : gmap string pyval;
  vehicles : Vehicles;
  sorted_ids : list string;
  get_x_by_id : string -> R;
  scenario_max_speed : R;
  scenario_length : R;
  sim_step : R
}.

(** The classes of the file. *)
Inductive variant : Type :=
| Base        (* WaveAttenuationEnv *)
| PO          (* WaveAttenuationPOEnv *)
| MLPGlobal   (* WaveAttenuationMLPGlobalEnv *)
| MLPLocal    (* WaveAttenuationMLPLocalEnv *)
| CNNDebug    (* WaveAttenuationCNNDebugEnv *)
| CNN         (* WaveAttenuationCNNEnv *)
| CNNIDM      (* WaveAttenuationCNNIDMEnv *)
| CNNPI.      (* WaveAttenuationCNNPIEnv *)

(** [for x in xs] over an immutable sequence, collecting the results of a
    comprehension whose element expression may raise. *)
Fixpoint comprehension {A B : Type} (f : A -> result B) (xs : list A) : result (list B) :=
  match xs with
  | [] => Ok []
  | x :: xs' =>
      let* y := f x in
      let* ys := comprehension f xs' in
      Ok (y :: ys)
  end.

(** [for i, x in enumerate(xs)] threading the mutated state [s]. *)
Fixpoint for_enumerate {A St : Type} (body : nat -> A -> St -> result St)
    (i : nat) (xs : list A) (s : St) : result St :=
  match xs with
  | [] => Ok s
  | x :: xs' =>
      let* s' := body i x s in
      for_enumerate body (S i) xs' s'
  end.

(** [l[i] = v] on a Python list. *)
Definition setitem {A : Type} (l : list A) (i : nat) (v : A) : result (list A) :=
  if (i <? length l)%nat then Ok (<[i:=v]> l) else Raise IndexError.

(** [l.remove(x)]: drops the first occurrence, [ValueError] without one. *)
Fixpoint remove (x : string) (l : list string) : result (list string) :=
  match l with
  | [] => Raise ValueError
  | y :: l' =>
      if bool_decide (y = x) then Ok l'
      else
        let* r := remove x l' in
        Ok (y :: r)
  end.

(** An id that Python treats as false: [None] or the empty string. *)
Definition falsy (o : option string) : bool :=
  match o with
  | None => true
  | Some s => bool_decide (s = ""%string)
  end.

(** [o or d] on ids. *)
Definition or_else (o : option string) (d : string) : string :=
  match o with
  | Some s => if falsy o then d else s
  | None => d
  end.

(** [sub in s] on strings. *)
Fixpoint contains (sub s : string) : bool :=
  String.prefix sub s ||
  match s with
  | EmptyString => false
  | String _ s' => contains sub s'
  end.

(** [gym.spaces.Box] with scalar bounds and an explicit shape. *)
Record Box : Type := {
  low : R;
  high : R;
  shape : list nat
}.

(** The [additional_params] handed to [NetParams] by [reset]. *)
Record NetParams : Type := {
  length_ : Z;
  lanes : Z;
  speed_limit : Z;
  resolution : Z
}.

(** [random.randint(a, b)] is [a + _randbelow(b + 1 - a)], and raises
    [ValueError] on an empty range; [rnd] is the generator's draw. *)
Definition randint (a b : Z) (rnd : Z) : result Z :=
  let width := (b + 1 - a)%Z in
  if (0 <? width)%Z then Ok (a + rnd mod width)%Z else Raise ValueError.

(** ** WaveAttenuationEnv *)

Module WaveAttenuationEnv.

(** The loop of [__init__] over [ADDITIONAL_ENV_PARAMS.keys()]. *)
Fixpoint check_params (ps : list string) (additional_params : gmap string pyval)
    : result unit :=
  match ps with
  | [] => Ok tt
  | p :: ps' =>
      if bool_decide (additional_params !! p = None)
      then Raise (KeyError p)
      else check_params ps' additional_params
  end.

(** [__init__]; [super_init] is the outcome of the external [Env.__init__]. *)
Definition init (additional_params : gmap string pyval) (super_init : result unit)
    : result unit :=
  let* _ := check_params (keys ADDITIONAL_ENV_PARAMS) additional_params in
  super_init.

(** [Box] asserts that [low] and [high] are scalars when a shape is given. *)
Definition action_space (env : Env) : result Box :=
  let* d := getitem (additional_params env) "max_decel" in
  let* a := getitem (additional_params env) "max_accel" in
  match d, a with
  | VNum d, VNum a =>
      Ok {| low := - Rabs d; high := a;
            shape := [num_rl_vehicles (vehicles env)] |}
  | _, _ => Raise AssertionError
  end.

(** [any(vel < -100) or kwargs["fail"]]: the right operand is only
    evaluated, and the key only looked up, when the left one is false. *)
Definition failed (vel : list R) (kwargs : gmap string bool) : result bool :=
  if existsb (fun v => Rltb v (-100)) vel then Ok true
  else getitem kwargs "fail".

Definition compute_reward (env : Env) (rl_actions : option (list R))
    (kwargs : gmap string bool) : result R :=
  match rl_actions with
  | None => Ok 0
  | Some acts =>
      let vel := map (get_speed (vehicles env)) (get_ids (vehicles env)) in
      let* f := failed vel kwargs in
      if f then Ok 0
      else
        let eta_2 := 4 in
        let reward := eta_2 * mean vel / 20 in
        let eta := 8 in
        let accel_threshold := 0 in
        let m := mean (map Rabs acts) in
        if Rltb accel_threshold m
        then Ok (reward + eta * (accel_threshold - m))
        else Ok reward
  end.

(** One row [[speed / max_speed, x / length]] of the state array. *)
Definition state_row (env : Env) (veh_id : string) : result (list R) :=
  let* v := truediv (get_speed (vehicles env) veh_id) (scenario_max_speed env) in
  let* x := truediv (get_x_by_id env veh_id) (scenario_length env) in
  Ok [v; x].

Definition get_state (env : Env) : result (list (list R)) :=
  comprehension (state_row env) (sorted_ids env).

(** The network parameters that [reset] builds the new scenario from. *)
Definition reset (env : Env) (rnd : Z) : result NetParams :=
  let* rl := getitem (additional_params env) "ring_length" in
  match rl with
  | VNum _ => Raise TypeError
  | VList xs =>
      let* lo := index xs 0 in
      let* hi := index xs 1 in
      let* len := randint lo hi rnd in
      Ok {| length_ := len; lanes := 1; speed_limit := 30; resolution := 40 |}
  end.

(** [observation_space]: the [Tuple] of the speed box and the position box. *)
Definition observation_space (env : Env) : Box * Box :=
  let speed := {| low := 0; high := 1; shape := [num_vehicles (vehicles env)] |} in
  let pos := {| low := 0; high := 1; shape := [num_vehicles (vehicles env)] |} in
  (speed, pos).

(** The ids that [_apply_rl_actions] hands to [apply_acceleration]. *)
Definition sorted_rl_ids (env : Env) : list string :=
  filter (.∈ get_rl_ids (vehicles env)) (sorted_ids env).

(** [additional_command]: the ids passed to [set_observed], in order. *)
Definition additional_command (env : Env) : list string :=
  if (0 <? num_rl_vehicles (vehicles env))%nat
  then get_human_ids (vehicles env)
  else [].

(** The closure [v_eq_max_function] of [reset], whose root [fsolve] looks
    for.  For [0 <= v < v0] the base of the power is positive and
    [x ** -0.5] is [1 / sqrt x]; elsewhere numpy yields [inf] or [nan],
    which the reals do not have. *)
Definition v_eq_max_function (env : Env) (v : R) : result R :=
  let num_veh := (Z.of_nat (num_vehicles (vehicles env)) - 1)%Z in
  let* s_eq_max :=
    truediv (scenario_length env - IZR (Z.of_nat (num_vehicles (vehicles env)) * 5))
            (IZR num_veh) in
  let v0 := 30 in
  let s0 := 2 in
  let T := 1 in
  let gamma := 4%nat in
  let error := s_eq_max - (s0 + v * T) * / sqrt (1 - (v / v0) ^ gamma) in
  Ok error.

End WaveAttenuationEnv.

(** ** WaveAttenuationPOEnv *)

Module WaveAttenuationPOEnv.

Definition get_state (env : Env) : result (list R) :=
  let veh := vehicles env in
  let* rl_id := index (get_rl_ids veh) 0 in
  let lead_id := or_else (get_leader veh rl_id) rl_id in
  let max_speed := 15 in
  let* rl := getitem (additional_params env) "ring_length" in
  let* max_length :=
    match rl with
    | VNum _ => Raise TypeError
    | VList xs => index xs 1
    end in
  let* o0 := truediv (get_speed veh rl_id) max_speed in
  let* o1 := truediv (get_speed veh lead_id - get_speed veh rl_id) max_speed in
  let* o2 := truediv (get_headway veh rl_id) (IZR max_length) in
  Ok [o0; o1; o2].

Definition observation_space (env : Env) : Box :=
  {| low := 0; high := 1; shape := [3%nat] |}.

(** [additional_command]: the id passed to [set_observed]. *)
Definition additional_command (env : Env) : result (list string) :=
  let veh := vehicles env in
  let* rl_id := index (get_rl_ids veh) 0 in
  let lead_id := or_else (get_leader veh rl_id) rl_id in
  Ok [lead_id].

End WaveAttenuationPOEnv.

(** ** WaveAttenuationMLPGlobalEnv *)

Module WaveAttenuationMLPGlobalEnv.

Definition state_row (env : Env) (max_speed : R) (veh_id : string) : result (list R) :=
  let* v := truediv (get_speed (vehicles env) veh_id) max_speed in
  let* x := truediv (get_x_by_id env veh_id) (scenario_length env) in
  Ok [v; x].

(** The rows over [get_ids()], flattened. *)
Definition get_state (env : Env) : result (list R) :=
  let max_speed := scenario_max_speed env in
  let* rows := comprehension (state_row env max_speed) (get_ids (vehicles env)) in
  Ok (concat rows).

Definition observation_space (env : Env) : Box :=
  {| low := 0; high := 1; shape := [(num_vehicles (vehicles env) * 2)%nat] |}.

End WaveAttenuationMLPGlobalEnv.

(** ** WaveAttenuationMLPLocalEnv *)

Module WaveAttenuationMLPLocalEnv.

(** The bookkeeping attributes of the instance. *)
Record state : Type := {
  num_rl : nat;
  rl_queue : list string;
  rl_veh : list string;
  leader : list string;
  follower : list string
}.

(** The attributes as [__init__] sets them. *)
Definition init_state : state :=
  {| num_rl := 1; rl_queue := []; rl_veh := []; leader := []; follower := [] |}.

Definition init (additional_params : gmap string pyval) (super_init : result unit)
    : result state :=
  let* _ := WaveAttenuationEnv.init additional_params super_init in
  Ok init_state.

(** The branch on the leader: its speed and the gap to it, or the
    normalizers when no leader is visible. *)
Definition lead_view (env : Env) (max_speed max_length : R) (leader : list string)
    (rl_id : string) : list string * R * R :=
  let veh := vehicles env in
  let lead_id := get_leader veh rl_id in
  match lead_id with
  | Some l =>
      if falsy lead_id then (leader, max_speed, max_length)
      else (leader ++ [l], get_speed veh l,
            get_x_by_id env l - get_x_by_id env rl_id - get_length veh rl_id)
  | None => (leader, max_speed, max_length)
  end.

(** The branch on the follower. *)
Definition follow_view (env : Env) (max_length : R) (follower : list string)
    (rl_id : string) : list string * R * R :=
  let veh := vehicles env in
  let follower_id := get_follower veh rl_id in
  match follower_id with
  | Some f =>
      if falsy follower_id then (follower, 0, max_length)
      else (follower ++ [f], get_speed veh f, get_headway veh f)
  | None => (follower, 0, max_length)
  end.

(** The body of the loop of [get_state] for the [i]-th controlled vehicle;
    the loop state is [(self.leader, self.follower, observation)]. *)
Definition observe (env : Env) (max_speed max_length : R) (i : nat) (rl_id : string)
    (s : list string * list string * list R)
    : result (list string * list string * list R) :=
  let '(leader, follower, observation) := s in
  let this_speed := get_speed (vehicles env) rl_id in
  let '(leader, lead_speed, lead_head) :=
    lead_view env max_speed max_length leader rl_id in
  let '(follower, follow_speed, follow_head) :=
    follow_view env max_length follower rl_id in
  let* o0 := truediv this_speed max_speed in
  let* observation := setitem observation (5 * i + 0) o0 in
  let* o1 := truediv (lead_speed - this_speed) max_speed in
  let* observation := setitem observation (5 * i + 1) o1 in
  let* o2 := truediv lead_head max_length in
  let* observation := setitem observation (5 * i + 2) o2 in
  let* o3 := truediv (this_speed - follow_speed) max_speed in
  let* observation := setitem observation (5 * i + 3) o3 in
  let* o4 := truediv follow_head max_length in
  let* observation := setitem observation (5 * i + 4) o4 in
  Ok (leader, follower, observation).

Definition get_state (env : Env) (st : state) : result (state * list R) :=
  let max_speed := scenario_max_speed env in
  let max_length := scenario_length env in
  let observation := replicate (5 * num_rl st) 0 in
  let* r := for_enumerate (observe env max_speed max_length) 0 (rl_veh st)
              ([], [], observation) in
  let '(leader, follower, observation) := r in
  Ok ({| num_rl := num_rl st; rl_queue := rl_queue st; rl_veh := rl_veh st;
         leader := leader; follower := follower |}, observation).

(** First loop of [additional_command]: queue the rl vehicles that are
    neither queued nor controlled; the queue grows while it is tested. *)
Fixpoint enqueue_new (rl_ids : list string) (rl_veh : list string)
    (rl_queue : list string) : list string :=
  match rl_ids with
  | [] => rl_queue
  | veh_id :: rl_ids' =>
      if bool_decide (veh_id ∈ rl_queue ++ rl_veh)
      then enqueue_new rl_ids' rl_veh rl_queue
      else enqueue_new rl_ids' rl_veh (rl_queue ++ [veh_id])
  end.

(** Second loop: over a copy of the queue, removing from the queue. *)
Fixpoint purge_queue (copy : list string) (rl_ids : list string)
    (rl_queue : list string) : result (list string) :=
  match copy with
  | [] => Ok rl_queue
  | veh_id :: copy' =>
      if bool_decide (veh_id ∈ rl_ids)
      then purge_queue copy' rl_ids rl_queue
      else
        let* q := remove veh_id rl_queue in
        purge_queue copy' rl_ids q
  end.

(** Third loop: over [self.rl_veh] itself while it is being mutated.  The
    list iterator holds an index [i] and stops once [i] is past the end of
    the list as it is then; [fuel] bounds the number of iterations. *)
Fixpoint purge_veh (fuel : nat) (i : nat) (rl_ids : list string)
    (rl_veh : list string) : result (list string) :=
  match fuel with
  | O => Ok rl_veh
  | S fuel' =>
      match rl_veh !! i with
      | None => Ok rl_veh
      | Some veh_id =>
          if bool_decide (veh_id ∈ rl_ids)
          then purge_veh fuel' (S i) rl_ids rl_veh
          else
            let* l := remove veh_id rl_veh in
            purge_veh fuel' (S i) rl_ids l
      end
  end.

(** The [while] loop: pop from the left of the queue while a slot is free. *)
Fixpoint fill_slots (num_rl : nat) (rl_queue : list string) (rl_veh : list string)
    : list string * list string :=
  match rl_queue with
  | [] => (rl_queue, rl_veh)
  | rl_id :: rl_queue' =>
      if (length rl_veh <? num_rl)%nat
      then fill_slots num_rl rl_queue' (rl_veh ++ [rl_id])
      else (rl_queue, rl_veh)
  end.

(** [additional_command]: the new attributes and the ids passed to
    [set_observed], in order. *)
Definition additional_command (rl_ids : list string) (st : state)
    : result (state * list string) :=
  let q1 := enqueue_new rl_ids (rl_veh st) (rl_queue st) in
  let* q2 := purge_queue q1 rl_ids q1 in
  let* v2 := purge_veh (length (rl_veh st)) 0 rl_ids (rl_veh st) in
  let '(q3, v3) := fill_slots (num_rl st) q2 v2 in
  Ok ({| num_rl := num_rl st; rl_queue := q3; rl_veh := v3;
         leader := leader st; follower := follower st |},
      leader st ++ follower st).

(** The attribute values that the methods of the class can produce. *)
Inductive reachable : state -> Prop :=
| reachable_init : reachable init_state
| reachable_additional_command (st st' : state) (rl_ids observed : list string) :
    reachable st ->
    additional_command rl_ids st = Ok (st', observed) ->
    reachable st'
| reachable_get_state (env : Env) (st st' : state) (observation : list R) :
    reachable st ->
    get_state env st = Ok (st', observation) ->
    reachable st'.

Definition observation_space (st : state) : Box :=
  {| low := 0; high := 1; shape := [(5 * num_rl st)%nat] |}.

End WaveAttenuationMLPLocalEnv.

(** The transpose of a rectangular matrix given by its rows. *)
Fixpoint transpose {A : Type} (m : list (list A)) : list (list A) :=
  match m with
  | [] => []
  | row :: rest =>
      match rest with
      | [] => map (fun x => [x]) row
      | _ :: _ => zip_with cons row (transpose rest)
      end
  end.

(** [np.moveaxis(t, 0, -1)] on a three-dimensional array: the entry at
    [[h][w][c]] of the result is the entry at [[c][h][w]] of [t]. *)
Definition moveaxis_first_to_last {A : Type} (t : list (list (list A)))
    : list (list (list A)) :=
  map transpose (transpose t).

(** ** WaveAttenuationCNNEnv and its subclasses *)

Module WaveAttenuationCNNEnv.

(** The numerator is a numpy scalar, so the division itself never raises;
    by a speed limit of 0 numpy gives [inf] or [nan], which the reals do not
    have, so a statement on the value of the reward takes a non-zero
    [max_speed]. *)
Definition compute_reward (env : Env) (rl_actions : option (list R))
    (kwargs : gmap string bool) : result R :=
  let max_speed := scenario_max_speed env in
  let speed := map (get_speed (vehicles env)) (get_ids (vehicles env)) in
  Ok ((0.6 * mean speed + 0.4 * std speed) / max_speed).

(** [additional_command]: the id passed to [set_observed]. *)
Definition additional_command (env : Env) : result (list string) :=
  let veh := vehicles env in
  let* rl_id := index (get_rl_ids veh) 0 in
  let lead_id := or_else (get_leader veh rl_id) rl_id in
  Ok [lead_id].

(** [get_state]: [sights_buffer], an attribute of the external base class,
    holds one image per frame, taken here as [np.squeeze] leaves it (rows of
    intensities, without the unit channel axis); [np.moveaxis(..., 0, -1)]
    makes the frame index the last one. *)
Definition get_state (sights_buffer : list (list (list Z))) : list (list (list R)) :=
  map (map (map (fun p => IZR p / 255))) (moveaxis_first_to_last sights_buffer).

End WaveAttenuationCNNEnv.

(** A fallback car-following controller ([IDMController], [PISaturation]):
    the vehicle it was built for and its [get_accel]. *)
Record Controller : Type := {
  veh_id : string;
  get_accel : Env -> R
}.

(** A [slowDown(vid, next_vel, duration)] command sent to the simulator. *)
Record SlowDown : Type := {
  vid : string;
  next_vel : R;
  duration : Z
}.

(** The loop body shared, up to the blending expression, by the two
    [apply_acceleration] overrides; the loop state is [(acc, commands)]. *)
Definition apply_one (blend : R -> R -> R) (env : Env)
    (default_controller : list Controller) (i : nat) (vid : string)
    (s : list (option R) * list SlowDown) : result (list (option R) * list SlowDown) :=
  let '(acc, commands) := s in
  let* a := index acc i in
  match a with
  | None => Ok (acc, commands)
  | Some a =>
      let this_vel := get_speed (vehicles env) vid in
      let* r :=
        if contains "rl" vid then
          let* c := index default_controller i in
          let default_acc := get_accel c env in
          let a' := blend a default_acc in
          Ok (<[i:=Some a']> acc, a')
        else Ok (acc, a) in
      let '(acc, a) := r in
      let next_vel := Rmax (this_vel + a * sim_step env) 0 in
      Ok (acc, commands ++ [ {| vid := vid; next_vel := next_vel; duration := 1 |} ])
  end.

Module WaveAttenuationCNNIDMEnv.

(** [acc[i] = 0.5*np.clip(acc[i], -5, 3) + 0.5*default_acc] *)
Definition blend (a default_acc : R) : R := 0.5 * clip a (-5) 3 + 0.5 * default_acc.

Definition apply_acceleration (env : Env) (default_controller : list Controller)
    (veh_ids : list string) (acc : list (option R))
    : result (list (option R) * list SlowDown) :=
  for_enumerate (apply_one blend env default_controller) 0 veh_ids (acc, []).

(** The inherited [_apply_rl_actions], which calls the override above. *)
Definition apply_rl_actions (env : Env) (default_controller : list Controller)
    (rl_actions : list (option R)) : result (list (option R) * list SlowDown) :=
  apply_acceleration env default_controller
    (WaveAttenuationEnv.sorted_rl_ids env) rl_actions.

(** The controllers that [__init__] builds, one [IDMController] per id of
    [get_rl_ids()]; the class itself is external. *)
Definition default_controller (IDMController : string -> Controller) (env : Env)
    : list Controller :=
  map IDMController (get_rl_ids (vehicles env)).

End WaveAttenuationCNNIDMEnv.

Module WaveAttenuationCNNPIEnv.

(** [acc[i] += default_acc] *)
Definition blend (a default_acc : R) : R := a + default_acc.

Definition apply_acceleration (env : Env) (default_controller : list Controller)
    (veh_ids : list string) (acc : list (option R))
    : result (list (option R) * list SlowDown) :=
  for_enumerate (apply_one blend env default_controller) 0 veh_ids (acc, []).

(** The inherited [_apply_rl_actions], which calls the override above. *)
Definition apply_rl_actions (env : Env) (default_controller : list Controller)
    (rl_actions : list (option R)) : result (list (option R) * list SlowDown) :=
  apply_acceleration env default_controller
    (WaveAttenuationEnv.sorted_rl_ids env) rl_actions.

(** The controllers that [__init__] builds, one [PISaturation] per id of
    [get_rl_ids()]; the class itself is external. *)
Definition default_controller (PISaturation : string -> Controller) (env : Env)
    : list Controller :=
  map PISaturation (get_rl_ids (vehicles env)).

End WaveAttenuationCNNPIEnv.

(** ** Method resolution *)

(** Only [WaveAttenuationCNNEnv] overrides [compute_reward]; its two
    subclasses inherit that override. *)
Definition compute_reward (v : variant) :
    Env -> option (list R) -> gmap string bool -> result R :=
  match v with
  | CNN | CNNIDM | CNNPI => WaveAttenuationCNNEnv.compute_reward
  | Base | PO | MLPGlobal | MLPLocal | CNNDebug => WaveAttenuationEnv.compute_reward
  end.

(** No subclass overrides [action_space]. *)
Definition action_space (v : variant) : Env -> result Box :=
  WaveAttenuationEnv.action_space.

(** Every [__init__] of the file starts with, or is, that of
    [WaveAttenuationEnv]; the subclasses only set attributes around it. *)
Definition init (v : variant) (additional_params : gmap string pyval)
    (super_init : result unit) : result unit :=
  match v with
  | MLPLocal =>
      let* _ := WaveAttenuationMLPLocalEnv.init additional_params super_init in
      Ok tt
  | _ => WaveAttenuationEnv.init additional_params super_init
  end.

(** The simulator reported a failure, or some velocity is invalid. *)
Definition failure_reported (env : Env) (kwargs : gmap string bool) : Prop :=
  kwargs !! "fail"%string = Some true \/
  exists veh_id, veh_id ∈ get_ids (vehicles env) /\ get_speed (vehicles env) veh_id < -100.

Definition inherits_reward (v : variant) : Prop :=
  v = Base \/ v = PO \/ v = MLPGlobal \/ v = MLPLocal \/ v = CNNDebug.

Definition unit_interval (x : R) : Prop := 0 <= x <= 1.

Definition signed_unit_interval (x : R) : Prop := -1 <= x <= 1.

(** ** Concrete environments *)

(** Two vehicles, both at 10 m/s (or both at [speed]), on a 260 m ring
    with a 30 m/s speed limit; ["rl_0"] follows ["human_0"]. *)
Definition two_vehicles (speed : string -> R) : Vehicles :=
  {| get_ids := ["human_0"; "rl_0"]%string;
     get_rl_ids := ["rl_0"%string];
     get_human_ids := ["human_0"%string];
     num_vehicles := 2;
     num_rl_vehicles := 1;
     get_speed := speed;
     get_headway := fun _ => 125;
     get_length := fun _ => 5;
     get_leader := fun id => if bool_decide (id = "rl_0"%string)
                             then Some "human_0"%string else Some "rl_0"%string;
     get_follower := fun id => if bool_decide (id = "rl_0"%string)
                               then Some "human_0"%string else Some "rl_0"%string |}.

Definition default_params : gmap string pyval :=
  list_to_map ADDITIONAL_ENV_PARAMS.

Definition ring_env (speed : string -> R) : Env :=
  {| additional_params := default_params;
     vehicles := two_vehicles speed;
     sorted_ids := ["human_0"; "rl_0"]%string;
     get_x_by_id := fun id => if bool_decide (id = "rl_0"%string) then 0 else 130;
     scenario_max_speed := 30;
     scenario_length := 260;
     sim_step := 0.1 |}.

(** [kwargs] of a step on which the simulator reported a failure. *)
Definition fail_kwargs : gmap string bool := {[ "fail"%string := true ]}.

(** Some key of [ADDITIONAL_ENV_PARAMS] is absent from the parameters. *)
Definition required_missing (additional_params : gmap string pyval) : Prop :=
  exists p, p ∈ ["max_accel"; "max_decel"; "ring_length"]%string /\
            additional_params !! p = None.

(** The leader drives at 5 m/s and the rl vehicle behind it at 10 m/s. *)
Definition closing_in (id : string) : R :=
  if bool_decide (id = "rl_0"%string) then 10 else 5.

(** The premise of the observation bounds: every speed within
    [[0, max_speed]] and every position within [[0, length]]. *)
Definition speeds_in_range (env : Env) (ids : list string) : Prop :=
  forall id, id ∈ ids -> 0 <= get_speed (vehicles env) id <= scenario_max_speed env.


(** What [WaveAttenuationMLPLocalEnv.get_state] reads about a controlled
    vehicle is in range: speeds within [[0, max_speed]], the gap to a visible
    leader and the headway of a visible follower within [[0, length]]. *)
Definition local_in_range (env : Env) (rl_id : string) : Prop :=
  let veh := vehicles env in
  0 <= get_speed veh rl_id <= scenario_max_speed env /\
  (forall l, get_leader veh rl_id = Some l -> l <> ""%string ->
     0 <= get_speed veh l <= scenario_max_speed env /\
     0 <= get_x_by_id env l - get_x_by_id env rl_id - get_length veh rl_id
       <= scenario_length env) /\
  (forall f, get_follower veh rl_id = Some f -> f <> ""%string ->
     0 <= get_speed veh f <= scenario_max_speed env /\
     0 <= get_headway veh f <= scenario_length env).

(** A single rl vehicle with nothing else in sight. *)
Definition lone_vehicle : Vehicles :=
  {| get_ids := ["rl_0"%string];
     get_rl_ids := ["rl_0"%string];
     get_human_ids := [];
     num_vehicles := 1;
     num_rl_vehicles := 1;
     get_speed := fun _ => 6;
     get_headway := fun _ => 255;
     get_length := fun _ => 5;
     get_leader := fun _ => None;
     get_follower := fun _ => None |}.

Definition lone_env : Env :=
  {| additional_params := default_params;
     vehicles := lone_vehicle;
     sorted_ids := ["rl_0"%string];
     get_x_by_id := fun _ => 0;
     scenario_max_speed := 30;
     scenario_length := 260;
     sim_step := 0.1 |}.

(** The commands that the final accelerations [acc] call for: one per
    vehicle with an acceleration, to the speed reached after one simulation
    step, floored at 0. *)
Fixpoint commanded (env : Env) (i : nat) (veh_ids : list string)
    (acc : list (option R)) : list SlowDown :=
  match veh_ids with
  | [] => []
  | vid :: veh_ids' =>
      match acc !! i with
      | Some (Some a) =>
          [ {| vid := vid;
               next_vel := Rmax (get_speed (vehicles env) vid + a * sim_step env) 0;
               duration := 1 |} ]
      | _ => []
      end ++ commanded env (S i) veh_ids' acc
  end.

(** A state of [WaveAttenuationMLPLocalEnv] with ["rl_0"] controlled and
    ["rl_1"] waiting. *)
Definition one_controlled : WaveAttenuationMLPLocalEnv.state :=
  {| WaveAttenuationMLPLocalEnv.num_rl := 1;
     WaveAttenuationMLPLocalEnv.rl_queue := ["rl_1"%string];
     WaveAttenuationMLPLocalEnv.rl_veh := ["rl_0"%string];
     WaveAttenuationMLPLocalEnv.leader := [];
     WaveAttenuationMLPLocalEnv.follower := [] |}.

(** A fallback controller that always asks for 1 m/s^2. *)
Definition steady (id : string) : Controller :=
  {| veh_id := id; get_accel := fun _ => 1 |}.

(** The acceleration applied to vehicle [vid] for the policy's action [a]:
    blended with the output of the controller [c] for an rl vehicle. *)
Definition blended (blend : R -> R -> R) (env : Env) (c : Controller)
    (vid : string) (a : R) : R :=
  if contains "rl" vid then blend a (get_accel c env) else a.

(** A neighbour id that [get_state] can use: neither [None] nor empty. *)
Definition visible (o : option string) : option string :=
  if falsy o then None else o.

(** Attributes with two controlled vehicles for a single slot, as only a
    caller that writes them itself can produce. *)
Definition overfull : WaveAttenuationMLPLocalEnv.state :=
  {| WaveAttenuationMLPLocalEnv.num_rl := 1;
     WaveAttenuationMLPLocalEnv.rl_queue := [];
     WaveAttenuationMLPLocalEnv.rl_veh := ["rl_0"; "rl_1"]%string;
     WaveAttenuationMLPLocalEnv.leader := [];
     WaveAttenuationMLPLocalEnv.follower := [] |}.

(** The environment with other [additional_params]. *)
Definition with_additional_params (env : Env) (params : gmap string pyval) : Env :=
  {| additional_params := params;
     vehicles := vehicles env;
     sorted_ids := sorted_ids env;
     get_x_by_id := get_x_by_id env;
     scenario_max_speed := scenario_max_speed env;
     scenario_length := scenario_length env;
     sim_step := sim_step env |}.

(** ** WaveAttenuationCNNDebugEnv *)

Module WaveAttenuationCNNDebugEnv.

(** The value that [get_state] returns; the figure that it saves on the way
    is not modelled. *)
Definition get_state (sights_buffer : list (list (list Z))) : list (list (list R)) :=
  map (map (map (fun p => IZR p / 255))) (moveaxis_first_to_last sights_buffer).

End WaveAttenuationCNNDebugEnv.

(** ** The five components of a controlled vehicle *)








(** * Properties *)

(** ** Auxiliary facts *)

Lemma Rltb_true (x y : R) : Rltb x y = true <-> x < y.
Proof.
  unfold Rltb. destruct (Rlt_dec x y) as [Hlt | Hge].
  - tauto.
  - split; [discriminate | contradiction].
Qed.

Lemma truediv_nonzero (x y : R) : y <> 0 -> truediv x y = Ok (x / y).
Proof.
  intros Hy. unfold truediv, Req_b.
  destruct (Req_dec_T y 0); [contradiction | reflexivity].
Qed.

Lemma div_unit_interval (x m : R) : 0 < m -> 0 <= x <= m -> unit_interval (x / m).
Proof.
  intros Hm [H0 H1]. unfold unit_interval. split.
  - unfold Rdiv. apply Rle_mult_inv_pos; lra.
  - apply (Rmult_le_reg_r m); [lra |]. unfold Rdiv.
    rewrite Rmult_assoc, Rinv_l by lra. lra.
Qed.

Lemma failed_true (vel : list R) (kwargs : gmap string bool) :
  (kwargs !! "fail"%string = Some true \/ exists v, v ∈ vel /\ v < -100) ->
  WaveAttenuationEnv.failed vel kwargs = Ok true.
Proof.
  intros H. unfold WaveAttenuationEnv.failed.
  destruct (existsb (fun v => Rltb v (-100)) vel) eqn:Hany; [reflexivity |].
  destruct H as [Hfail | (v & Hin & Hlt)].
  - unfold getitem. rewrite Hfail. reflexivity.
  - assert (existsb (fun v => Rltb v (-100)) vel = true) as Habs.
    { apply existsb_exists. exists v. split.
      - apply list_elem_of_In. exact Hin.
      - apply Rltb_true. exact Hlt. }
    congruence.
Qed.

(** ** Reward *)

(** C8: [WaveAttenuationEnv.compute_reward] returns 0 when [rl_actions] is
    [None] (the warmup steps), whatever the vehicle speeds and the keyword
    arguments, the failure flag included, are. *)
Theorem compute_reward_warmup (env : Env) (kwargs : gmap string bool) :
  WaveAttenuationEnv.compute_reward env None kwargs = Ok 0.
Proof. reflexivity. Qed.

(** The reward of the classes that inherit [compute_reward] is 0 after a
    reported failure, during the warmup as well as afterwards. *)
Lemma base_reward_after_failure (env : Env) (rl_actions : option (list R))
    (kwargs : gmap string bool) :
  failure_reported env kwargs ->
  WaveAttenuationEnv.compute_reward env rl_actions kwargs = Ok 0.
Proof.
  intros Hfail. destruct rl_actions as [acts |]; [| reflexivity].
  unfold WaveAttenuationEnv.compute_reward.
  rewrite failed_true; [reflexivity |].
  destruct Hfail as [Hflag | (id & Hin & Hlt)]; [left; exact Hflag | right].
  exists (get_speed (vehicles env) id). split; [| exact Hlt].
  apply list_elem_of_fmap. exists id. split; [reflexivity | exact Hin].
Qed.

(** C1 (as amended): for the classes that inherit
    [WaveAttenuationEnv.compute_reward] (all but [WaveAttenuationCNNEnv] and
    its two subclasses), the reward is exactly 0, and nothing is raised,
    whenever the failure flag is set or some velocity is below -100. *)
Theorem compute_reward_zero_on_failure (v : variant) (env : Env)
    (rl_actions : option (list R)) (kwargs : gmap string bool) :
  inherits_reward v ->
  failure_reported env kwargs ->
  compute_reward v env rl_actions kwargs = Ok 0.
Proof.
  intros Hv Hfail.
  destruct Hv as [-> | [-> | [-> | [-> | ->]]]]; simpl;
    apply base_reward_after_failure; exact Hfail.
Qed.

Lemma compute_reward_zero_on_failure_witness :
  compute_reward PO (ring_env (fun _ => 10)) (Some [1]) fail_kwargs = Ok 0.
Proof.
  apply compute_reward_zero_on_failure.
  - right. left. reflexivity.
  - left. reflexivity.
Defined.

Lemma mean_pair (x : R) : mean [x; x] = x.
Proof. unfold mean, sum. simpl. field. Qed.

Lemma std_pair (x : R) : std [x; x] = 0.
Proof.
  unfold std. rewrite mean_pair. simpl.
  replace (x - x) with 0 by ring. rewrite Rabs_R0, Rsqr_0.
  rewrite mean_pair. apply sqrt_0.
Qed.

(** C1 (counterexample): with the failure flag set, the reward of
    [WaveAttenuationCNNEnv] for two vehicles at 10 m/s under a 30 m/s speed
    limit is 0.2, not 0. *)
Lemma cnn_reward_ignores_failure :
  failure_reported (ring_env (fun _ => 10)) fail_kwargs /\
  compute_reward CNN (ring_env (fun _ => 10)) (Some [1]) fail_kwargs = Ok 0.2 /\
  compute_reward CNN (ring_env (fun _ => 10)) (Some [1]) fail_kwargs <> Ok 0.
Proof.
  assert (compute_reward CNN (ring_env (fun _ => 10)) (Some [1]) fail_kwargs = Ok 0.2)
    as Heq.
  { simpl. unfold WaveAttenuationCNNEnv.compute_reward. simpl.
    rewrite mean_pair, std_pair. f_equal. lra. }
  split; [left; reflexivity |]. split; [exact Heq |].
  rewrite Heq. intros Habs. injection Habs. lra.
Qed.

(** ** Construction *)

Lemma check_params_ok (ps : list string) (additional_params : gmap string pyval) :
  (forall p, p ∈ ps -> additional_params !! p <> None) ->
  WaveAttenuationEnv.check_params ps additional_params = Ok tt.
Proof.
  induction ps as [| p ps IH]; intros Hall; simpl; [reflexivity |].
  rewrite bool_decide_eq_false_2 by (apply Hall; left).
  apply IH. intros q Hq. apply Hall. right. exact Hq.
Qed.

Lemma check_params_raise (ps : list string) (additional_params : gmap string pyval) :
  (exists p, p ∈ ps /\ additional_params !! p = None) ->
  exists p, p ∈ ps /\ additional_params !! p = None /\
            WaveAttenuationEnv.check_params ps additional_params = Raise (KeyError p).
Proof.
  induction ps as [| q ps IH]; intros (p & Hin & Hnone).
  - inversion Hin.
  - simpl. destruct (bool_decide (additional_params !! q = None)) eqn:Hq.
    + apply bool_decide_eq_true_1 in Hq. exists q.
      split; [left | split; [exact Hq | reflexivity]].
    + apply bool_decide_eq_false_1 in Hq.
      apply elem_of_cons in Hin as [-> | Hin]; [contradiction |].
      destruct IH as (p' & Hin' & Hnone' & Hraise); [exists p; split; assumption |].
      exists p'. split; [right; exact Hin' | split; assumption].
Qed.

Lemma init_unfold (v : variant) (additional_params : gmap string pyval)
    (super_init : result unit) :
  init v additional_params super_init =
  let* _ := WaveAttenuationEnv.check_params (keys ADDITIONAL_ENV_PARAMS) additional_params in
  super_init.
Proof.
  destruct v; try reflexivity.
  unfold init, WaveAttenuationMLPLocalEnv.init, WaveAttenuationEnv.init.
  destruct (WaveAttenuationEnv.check_params _ _) as [[] | e]; [| reflexivity].
  destruct super_init as [[] | e]; reflexivity.
Qed.

(** C5: for every class of the file, construction raises a [KeyError] for
    an absent key when one of "max_accel", "max_decel", "ring_length" is
    absent from [additional_params]; when all three are present the
    validation passes and the constructor's outcome is that of the external
    base constructor.  So, that one succeeding, construction raises if and
    only if a required key is absent. *)
Theorem init_requires_additional_params (v : variant)
    (additional_params : gmap string pyval) :
  (required_missing additional_params ->
   forall super_init, exists p,
     p ∈ ["max_accel"; "max_decel"; "ring_length"]%string /\
     additional_params !! p = None /\
     init v additional_params super_init = Raise (KeyError p)) /\
  (~ required_missing additional_params ->
   forall super_init, init v additional_params super_init = super_init) /\
  (raises (init v additional_params (Ok tt)) <-> required_missing additional_params).
Proof.
  assert (required_missing additional_params ->
          forall super_init, exists p,
            p ∈ ["max_accel"; "max_decel"; "ring_length"]%string /\
            additional_params !! p = None /\
            init v additional_params super_init = Raise (KeyError p)) as Hraise.
  { intros Hmiss super_init.
    destruct (check_params_raise (keys ADDITIONAL_ENV_PARAMS) additional_params Hmiss)
      as (p & Hin & Hnone & Heq).
    exists p. split; [exact Hin | split; [exact Hnone |]].
    rewrite init_unfold, Heq. reflexivity. }
  assert (~ required_missing additional_params ->
          forall super_init, init v additional_params super_init = super_init) as Hpass.
  { intros Hall super_init. rewrite init_unfold, check_params_ok; [reflexivity |].
    intros p Hin Hnone. apply Hall. exists p. split; assumption. }
  split; [exact Hraise | split; [exact Hpass |]].
  split.
  - intros [e He].
    destruct (decide (additional_params !! "max_accel"%string = None)) as [H1 | H1];
      [exists "max_accel"%string; split; [repeat constructor | exact H1] |].
    destruct (decide (additional_params !! "max_decel"%string = None)) as [H2 | H2];
      [exists "max_decel"%string; split; [repeat constructor | exact H2] |].
    destruct (decide (additional_params !! "ring_length"%string = None)) as [H3 | H3];
      [exists "ring_length"%string; split; [repeat constructor | exact H3] |].
    rewrite Hpass in He; [discriminate |].
    intros (p & Hin & Hnone).
    apply elem_of_cons in Hin as [-> | Hin]; [contradiction |].
    apply elem_of_cons in Hin as [-> | Hin]; [contradiction |].
    apply list_elem_of_singleton in Hin as ->. contradiction.
  - intros Hmiss. destruct (Hraise Hmiss (Ok tt)) as (p & _ & _ & Heq).
    exists (KeyError p). exact Heq.
Qed.

Lemma init_requires_additional_params_witness :
  (exists p, p ∈ ["max_accel"; "max_decel"; "ring_length"]%string /\
     (delete "max_decel"%string default_params) !! p = None /\
     init CNNPI (delete "max_decel"%string default_params) (Ok tt) = Raise (KeyError p)) /\
  init MLPLocal default_params (Ok tt) = Ok tt.
Proof.
  split.
  - apply (init_requires_additional_params CNNPI (delete "max_decel"%string default_params)).
    exists "max_decel"%string. split; [repeat constructor | reflexivity].
  - apply (init_requires_additional_params MLPLocal default_params).
    intros (p & Hin & Hnone).
    apply elem_of_cons in Hin as [-> | Hin]; [discriminate Hnone |].
    apply elem_of_cons in Hin as [-> | Hin]; [discriminate Hnone |].
    apply list_elem_of_singleton in Hin as ->. discriminate Hnone.
Defined.

(** ** Action space *)

(** C7: for every class of the file, the action space is a box with one
    component per rl vehicle, lower bound [-|max_decel|] and upper bound
    [max_accel], both taken from [additional_params]. *)
Theorem action_space_bounds (v : variant) (env : Env) (max_decel max_accel : R) :
  additional_params env !! "max_decel"%string = Some (VNum max_decel) ->
  additional_params env !! "max_accel"%string = Some (VNum max_accel) ->
  action_space v env =
    Ok {| low := - Rabs max_decel; high := max_accel;
          shape := [num_rl_vehicles (vehicles env)] |}.
Proof.
  intros Hd Ha. unfold action_space, WaveAttenuationEnv.action_space, getitem.
  rewrite Hd, Ha. reflexivity.
Qed.

Lemma action_space_bounds_witness :
  action_space MLPGlobal (ring_env (fun _ => 10)) =
    Ok {| low := - Rabs 5; high := 3; shape := [1%nat] |}.
Proof.
  apply (action_space_bounds MLPGlobal (ring_env (fun _ => 10)) 5 3); reflexivity.
Defined.

(** ** Reset *)

Lemma randint_range (a b rnd : Z) :
  (a <= b)%Z -> exists n, randint a b rnd = Ok n /\ (a <= n <= b)%Z.
Proof.
  intros Hab. unfold randint.
  destruct (Z.ltb_spec 0 (b + 1 - a)) as [Hw | Hw]; [| lia].
  exists (a + rnd mod (b + 1 - a))%Z. split; [reflexivity |].
  pose proof (Z.mod_pos_bound rnd (b + 1 - a) Hw). lia.
Qed.

Lemma randint_empty (a b rnd : Z) : (b < a)%Z -> randint a b rnd = Raise ValueError.
Proof.
  intros Hab. unfold randint.
  destruct (Z.ltb_spec 0 (b + 1 - a)) as [Hw | Hw]; [lia | reflexivity].
Qed.

(** C6: the ring length that [reset] builds the new network with is an
    integer between [ring_length[0]] and [ring_length[1]] inclusive, for
    every draw of the random generator; with an empty range no network is
    built, since [random.randint] raises [ValueError]. *)
Theorem reset_ring_length (env : Env) (rnd : Z) (ring_length : list Z) (lo hi : Z) :
  additional_params env !! "ring_length"%string = Some (VList ring_length) ->
  ring_length !! 0%nat = Some lo ->
  ring_length !! 1%nat = Some hi ->
  ((lo <= hi)%Z ->
   exists net, WaveAttenuationEnv.reset env rnd = Ok net /\
               (lo <= length_ net <= hi)%Z) /\
  ((hi < lo)%Z -> WaveAttenuationEnv.reset env rnd = Raise ValueError).
Proof.
  intros Hrl Hlo Hhi. unfold WaveAttenuationEnv.reset, getitem, index.
  rewrite Hrl. simpl. rewrite Hlo, Hhi. simpl. split.
  - intros Hle. destruct (randint_range lo hi rnd Hle) as (n & Hn & Hrange).
    rewrite Hn. simpl. eexists. split; [reflexivity | exact Hrange].
  - intros Hlt. rewrite randint_empty by exact Hlt. reflexivity.
Qed.

Lemma reset_ring_length_witness :
  exists net, WaveAttenuationEnv.reset (ring_env (fun _ => 10)) 17 = Ok net /\
              (260 <= length_ net <= 260)%Z.
Proof.
  apply (reset_ring_length (ring_env (fun _ => 10)) 17 [260; 260]%Z 260 260);
    [reflexivity | reflexivity | reflexivity | lia].
Defined.

(** ** Observations *)

Lemma comprehension_ok {A B : Type} (f : A -> result B) (g : A -> B) (xs : list A) :
  (forall x, x ∈ xs -> f x = Ok (g x)) ->
  comprehension f xs = Ok (map g xs).
Proof.
  induction xs as [| x xs IH]; intros Hf; simpl; [reflexivity |].
  rewrite (Hf x) by left. simpl.
  rewrite IH by (intros y Hy; apply Hf; right; exact Hy). reflexivity.
Qed.

Lemma or_else_falsy (o : option string) (d : string) :
  falsy o = true -> or_else o d = d.
Proof. intros Hf. unfold or_else. rewrite Hf. destruct o; reflexivity. Qed.

(** C9: when the ego vehicle of [WaveAttenuationPOEnv] has no leader
    ([get_leader] gives [None] or the empty id), the ego vehicle stands in
    for it, and the relative-speed component of the three-element
    observation is exactly 0. *)
Theorem po_get_state_no_leader (env : Env) (rl_id : string) (others : list string)
    (ring_length : list Z) (max_length : Z) :
  get_rl_ids (vehicles env) = rl_id :: others ->
  falsy (get_leader (vehicles env) rl_id) = true ->
  additional_params env !! "ring_length"%string = Some (VList ring_length) ->
  ring_length !! 1%nat = Some max_length ->
  max_length <> 0%Z ->
  or_else (get_leader (vehicles env) rl_id) rl_id = rl_id /\
  WaveAttenuationPOEnv.get_state env =
    Ok [get_speed (vehicles env) rl_id / 15; 0;
        get_headway (vehicles env) rl_id / IZR max_length].
Proof.
  intros Hrl Hlead Hparam Hlen Hnz.
  pose proof (or_else_falsy _ rl_id Hlead) as Hself.
  split; [exact Hself |].
  unfold WaveAttenuationPOEnv.get_state, getitem, index.
  rewrite Hrl. simpl. rewrite Hself, Hparam. simpl. rewrite Hlen. simpl.
  rewrite !truediv_nonzero; [| apply not_0_IZR; exact Hnz | lra | lra].
  simpl. do 2 f_equal. f_equal. unfold Rdiv. rewrite Rminus_diag. apply Rmult_0_l.
Qed.

Lemma po_get_state_no_leader_witness :
  or_else (get_leader (vehicles lone_env) "rl_0") "rl_0" = "rl_0"%string /\
  WaveAttenuationPOEnv.get_state lone_env = Ok [6 / 15; 0; 255 / IZR 260].
Proof.
  apply (po_get_state_no_leader lone_env "rl_0" [] [260; 260]%Z 260);
    [reflexivity | reflexivity | reflexivity | reflexivity | lia].
Defined.

Lemma div_signed_unit_interval (x y m : R) :
  0 < m -> 0 <= x <= m -> 0 <= y <= m -> signed_unit_interval ((x - y) / m).
Proof.
  intros Hm Hx Hy. unfold signed_unit_interval.
  pose proof (div_unit_interval x m Hm Hx) as [Hx0 Hx1].
  pose proof (div_unit_interval y m Hm Hy) as [Hy0 Hy1].
  replace ((x - y) / m) with (x / m - y / m) by (field; lra). lra.
Qed.

Lemma unit_is_signed (x : R) : unit_interval x -> signed_unit_interval x.
Proof. unfold unit_interval, signed_unit_interval. lra. Qed.





Lemma setitem_ok {A : Type} (l : list A) (i : nat) (v : A) :
  (i < length l)%nat -> setitem l i v = Ok (<[i:=v]> l).
Proof.
  intros Hi. unfold setitem.
  destruct (Nat.ltb_spec i (length l)); [reflexivity | lia].
Qed.

Lemma falsy_visible (l : string) : falsy (Some l) = false -> l <> ""%string.
Proof. simpl. intros Hf. apply bool_decide_eq_false_1 in Hf. exact Hf. Qed.

Lemma lead_view_bounds (env : Env) (leader : list string) (rl_id : string) :
  0 < scenario_max_speed env -> 0 < scenario_length env ->
  local_in_range env rl_id ->
  exists leader' lead_speed lead_head,
    WaveAttenuationMLPLocalEnv.lead_view env (scenario_max_speed env)
      (scenario_length env) leader rl_id = (leader', lead_speed, lead_head) /\
    0 <= lead_speed <= scenario_max_speed env /\
    0 <= lead_head <= scenario_length env.
Proof.
  intros Hs Hl (_ & Hlead & _). unfold WaveAttenuationMLPLocalEnv.lead_view.
  destruct (get_leader (vehicles env) rl_id) as [l |] eqn:Hget.
  - destruct (falsy (Some l)) eqn:Hf.
    + do 3 eexists. split; [reflexivity | lra].
    + destruct (Hlead l eq_refl (falsy_visible l Hf)) as [Hv Hgap].
      do 3 eexists. split; [reflexivity | split; assumption].
  - do 3 eexists. split; [reflexivity | lra].
Qed.

Lemma follow_view_bounds (env : Env) (follower : list string) (rl_id : string) :
  0 < scenario_max_speed env -> 0 < scenario_length env ->
  local_in_range env rl_id ->
  exists follower' follow_speed follow_head,
    WaveAttenuationMLPLocalEnv.follow_view env (scenario_length env) follower rl_id =
      (follower', follow_speed, follow_head) /\
    0 <= follow_speed <= scenario_max_speed env /\
    0 <= follow_head <= scenario_length env.
Proof.
  intros Hs Hl (_ & _ & Hfollow). unfold WaveAttenuationMLPLocalEnv.follow_view.
  destruct (get_follower (vehicles env) rl_id) as [f |] eqn:Hget.
  - destruct (falsy (Some f)) eqn:Hf.
    + do 3 eexists. split; [reflexivity | lra].
    + destruct (Hfollow f eq_refl (falsy_visible f Hf)) as [Hv Hhead].
      do 3 eexists. split; [reflexivity | split; assumption].
  - do 3 eexists. split; [reflexivity | lra].
Qed.

Lemma observe_bounds (env : Env) (i : nat) (rl_id : string)
    (leader follower : list string) (observation : list R) :
  0 < scenario_max_speed env -> 0 < scenario_length env ->
  local_in_range env rl_id ->
  (5 * i + 4 < length observation)%nat ->
  Forall signed_unit_interval observation ->
  exists leader' follower' observation',
    WaveAttenuationMLPLocalEnv.observe env (scenario_max_speed env)
      (scenario_length env) i rl_id (leader, follower, observation) =
      Ok (leader', follower', observation') /\
    length observation' = length observation /\
    Forall signed_unit_interval observation'.
Proof.
  intros Hs Hl Hok Hi Hall.
  destruct (lead_view_bounds env leader rl_id Hs Hl Hok)
    as (leader' & lead_speed & lead_head & Hlv & Hls & Hlh).
  destruct (follow_view_bounds env follower rl_id Hs Hl Hok)
    as (follower' & follow_speed & follow_head & Hfv & Hfs & Hfh).
  destruct Hok as (Hthis & _ & _).
  unfold WaveAttenuationMLPLocalEnv.observe. rewrite Hlv, Hfv.
  rewrite !truediv_nonzero by lra. simpl.
  repeat (rewrite setitem_ok by (rewrite ?length_insert; lia); simpl).
  do 3 eexists. split; [reflexivity |]. split.
  - rewrite !length_insert. reflexivity.
  - repeat apply Forall_insert; try exact Hall.
    + apply unit_is_signed, div_unit_interval; lra.
    + apply div_signed_unit_interval; lra.
    + apply unit_is_signed, div_unit_interval; lra.
    + apply div_signed_unit_interval; lra.
    + apply unit_is_signed, div_unit_interval; lra.
Qed.

Lemma observe_loop_bounds (env : Env) (rl_veh : list string) :
  0 < scenario_max_speed env -> 0 < scenario_length env ->
  forall (i : nat) (leader follower : list string) (observation : list R),
  (forall id, id ∈ rl_veh -> local_in_range env id) ->
  (5 * (i + length rl_veh) <= length observation)%nat ->
  Forall signed_unit_interval observation ->
  exists leader' follower' observation',
    for_enumerate
      (WaveAttenuationMLPLocalEnv.observe env (scenario_max_speed env)
         (scenario_length env)) i rl_veh (leader, follower, observation) =
      Ok (leader', follower', observation') /\
    length observation' = length observation /\
    Forall signed_unit_interval observation'.
Proof.
  intros Hs Hl. induction rl_veh as [| id ids IH];
    intros i leader follower observation Hok Hlen Hall.
  - do 3 eexists. split; [reflexivity | split; [reflexivity | exact Hall]].
  - simpl in Hlen.
    destruct (observe_bounds env i id leader follower observation Hs Hl)
      as (l1 & f1 & o1 & Hstep & Hlen1 & Hall1);
      [apply Hok; left | lia | exact Hall |].
    cbn [for_enumerate]. rewrite Hstep. cbn [bind].
    destruct (IH (S i) l1 f1 o1) as (l2 & f2 & o2 & Hloop & Hlen2 & Hall2);
      [intros x Hx; apply Hok; right; exact Hx | rewrite Hlen1; lia | exact Hall1 |].
    exists l2, f2, o2. split; [exact Hloop | split; [congruence | exact Hall2]].
Qed.

Lemma local_state_ranges (env : Env) (st : WaveAttenuationMLPLocalEnv.state) :
  0 < scenario_max_speed env -> 0 < scenario_length env ->
  (length (WaveAttenuationMLPLocalEnv.rl_veh st)
     <= WaveAttenuationMLPLocalEnv.num_rl st)%nat ->
  (forall id, id ∈ WaveAttenuationMLPLocalEnv.rl_veh st -> local_in_range env id) ->
  exists st' obs,
    WaveAttenuationMLPLocalEnv.get_state env st = Ok (st', obs) /\
    length obs = (5 * WaveAttenuationMLPLocalEnv.num_rl st)%nat /\
    Forall signed_unit_interval obs.
Proof.
  intros Hs Hl Hlen Hok. unfold WaveAttenuationMLPLocalEnv.get_state.
  destruct (observe_loop_bounds env (WaveAttenuationMLPLocalEnv.rl_veh st) Hs Hl
              0 [] [] (replicate (5 * WaveAttenuationMLPLocalEnv.num_rl st) 0))
    as (l & f & o & Hloop & Hlen' & Hall).
  - exact Hok.
  - rewrite length_replicate. lia.
  - apply Forall_replicate. unfold signed_unit_interval. lra.
  - rewrite Hloop. simpl. do 2 eexists. split; [reflexivity |].
    split; [| exact Hall]. rewrite Hlen', length_replicate. reflexivity.
Qed.












Lemma ring_env_speeds (speed : string -> R) (ids : list string) :
  (forall id, 0 <= speed id <= 30) -> speeds_in_range (ring_env speed) ids.
Proof. intros Hspeed id _. simpl. apply Hspeed. Qed.


Lemma closing_in_range (id : string) : 0 <= closing_in id <= 15.
Proof. unfold closing_in. case_bool_decide; lra. Qed.



(** ** The controlled-vehicle set of WaveAttenuationMLPLocalEnv *)

Section ControlledSet.

Import WaveAttenuationMLPLocalEnv.

Variable rl_ids : list string.

Lemma remove_length (x : string) (l l' : list string) :
  remove x l = Ok l' -> length l = S (length l').
Proof.
  revert l'. induction l as [| y l IH]; intros l' Hrem; simpl in Hrem.
  - discriminate.
  - case_bool_decide.
    + injection Hrem as <-. reflexivity.
    + destruct (remove x l) as [r |]; [| discriminate].
      injection Hrem as <-. simpl. f_equal. apply IH. reflexivity.
Qed.

Lemma remove_middle (x : string) (kept rest : list string) :
  x ∉ kept -> remove x (kept ++ x :: rest) = Ok (kept ++ rest).
Proof.
  induction kept as [| y kept IH]; intros Hnot; simpl.
  - rewrite bool_decide_eq_true_2 by reflexivity. reflexivity.
  - apply not_elem_of_cons in Hnot as [Hne Hnot].
    rewrite bool_decide_eq_false_2 by congruence.
    rewrite IH by exact Hnot. reflexivity.
Qed.

(** The queue only grows at its right end in the first loop. *)
Lemma enqueue_new_app (ids veh queue : list string) :
  exists entered, enqueue_new ids veh queue = queue ++ entered.
Proof.
  revert queue. induction ids as [| id ids IH]; intros queue; simpl.
  - exists []. rewrite app_nil_r. reflexivity.
  - case_bool_decide.
    + apply IH.
    + destruct (IH (queue ++ [id])) as [entered Heq].
      exists (id :: entered). rewrite Heq, <- app_assoc. reflexivity.
Qed.

(** The second loop never raises and keeps exactly the present ids. *)
Lemma purge_queue_filter (kept copy : list string) :
  Forall (.∈ rl_ids) kept ->
  purge_queue copy rl_ids (kept ++ copy) = Ok (kept ++ filter (.∈ rl_ids) copy).
Proof.
  revert kept. induction copy as [| id copy IH]; intros kept Hkept; simpl.
  - reflexivity.
  - case_bool_decide as Hid.
    + rewrite filter_cons_True by exact Hid.
      replace (kept ++ id :: copy) with ((kept ++ [id]) ++ copy)
        by (rewrite <- app_assoc; reflexivity).
      rewrite IH by (apply Forall_app; split; [exact Hkept | repeat constructor; exact Hid]).
      rewrite <- app_assoc. reflexivity.
    + rewrite filter_cons_False by exact Hid.
      rewrite remove_middle.
      * simpl. apply IH. exact Hkept.
      * intros Hin. apply Hid.
        rewrite list.Forall_forall in Hkept. apply Hkept. exact Hin.
Qed.

(** The bound on the iterations of the third loop is never what stops it:
    any two bounds that cover the rest of the list give the same result. *)
Lemma purge_veh_fuel (fuel fuel' i : nat) (veh : list string) :
  (length veh <= i + fuel)%nat -> (length veh <= i + fuel')%nat ->
  purge_veh fuel i rl_ids veh = purge_veh fuel' i rl_ids veh.
Proof.
  revert fuel' i veh. induction fuel as [| fuel IH]; intros fuel' i veh Hf Hf'.
  - assert (veh !! i = None) as Hend by (apply lookup_ge_None; lia).
    destruct fuel'; simpl; [reflexivity | rewrite Hend; reflexivity].
  - destruct fuel' as [| fuel'].
    + assert (veh !! i = None) as Hend by (apply lookup_ge_None; lia).
      simpl. rewrite Hend. reflexivity.
    + simpl. destruct (veh !! i) as [id |] eqn:Hi; [| reflexivity].
      case_bool_decide.
      * apply IH; lia.
      * destruct (remove id veh) as [l |] eqn:Hrem; [| reflexivity].
        simpl. apply remove_length in Hrem. apply IH; lia.
Qed.

(** With at most one controlled vehicle the third loop is a filter. *)
Lemma purge_veh_single (veh : list string) :
  (length veh <= 1)%nat ->
  purge_veh (length veh) 0 rl_ids veh = Ok (filter (.∈ rl_ids) veh).
Proof.
  intros Hlen. destruct veh as [| id [| id' veh]]; simpl in *; [reflexivity | | lia].
  case_bool_decide as Hid.
  - rewrite filter_cons_True by exact Hid. reflexivity.
  - rewrite filter_cons_False by exact Hid.
    rewrite bool_decide_eq_true_2 by reflexivity. reflexivity.
Qed.

Lemma fill_slots_take_drop (n : nat) (queue veh : list string) :
  fill_slots n queue veh =
    (drop (n - length veh) queue, veh ++ take (n - length veh) queue).
Proof.
  revert veh. induction queue as [| id queue IH]; intros veh; simpl.
  - rewrite drop_nil, take_nil, app_nil_r. reflexivity.
  - destruct (Nat.ltb_spec (length veh) n) as [Hlt | Hge].
    + rewrite IH, length_app. simpl.
      replace (n - length veh)%nat with (S (n - (length veh + 1))) by lia.
      simpl. rewrite <- app_assoc. reflexivity.
    + replace (n - length veh)%nat with 0%nat by lia.
      simpl. rewrite app_nil_r. reflexivity.
Qed.

(** What [additional_command] computes when at most one vehicle is
    controlled. *)
Lemma additional_command_single (st : state) :
  (length (rl_veh st) <= 1)%nat ->
  let kept := filter (.∈ rl_ids) (rl_veh st) in
  let pending := filter (.∈ rl_ids) (enqueue_new rl_ids (rl_veh st) (rl_queue st)) in
  additional_command rl_ids st =
    Ok ({| num_rl := num_rl st;
           rl_queue := drop (num_rl st - length kept) pending;
           rl_veh := kept ++ take (num_rl st - length kept) pending;
           leader := leader st; follower := follower st |},
        leader st ++ follower st).
Proof.
  intros Hlen kept pending. unfold additional_command.
  pose proof (purge_queue_filter []
                (enqueue_new rl_ids (rl_veh st) (rl_queue st))
                (Forall_nil_2 _)) as Hq.
  simpl in Hq. rewrite Hq. simpl.
  rewrite purge_veh_single by exact Hlen. simpl.
  rewrite fill_slots_take_drop. reflexivity.
Qed.

End ControlledSet.

Lemma local_state_keeps_slots (env : Env) (st st' : WaveAttenuationMLPLocalEnv.state)
    (obs : list R) :
  WaveAttenuationMLPLocalEnv.get_state env st = Ok (st', obs) ->
  WaveAttenuationMLPLocalEnv.num_rl st' = WaveAttenuationMLPLocalEnv.num_rl st /\
  WaveAttenuationMLPLocalEnv.rl_veh st' = WaveAttenuationMLPLocalEnv.rl_veh st /\
  WaveAttenuationMLPLocalEnv.rl_queue st' = WaveAttenuationMLPLocalEnv.rl_queue st.
Proof.
  unfold WaveAttenuationMLPLocalEnv.get_state. intros Hget.
  destruct (for_enumerate _ _ _ _) as [[[l f] o] | e]; simpl in Hget; [| discriminate].
  injection Hget as <- _. auto.
Qed.

(** [__init__] provides a single slot, and no method adds one or
    overfills it. *)
Lemma reachable_single_slot (st : WaveAttenuationMLPLocalEnv.state) :
  WaveAttenuationMLPLocalEnv.reachable st ->
  WaveAttenuationMLPLocalEnv.num_rl st = 1%nat /\
  (length (WaveAttenuationMLPLocalEnv.rl_veh st) <= 1)%nat.
Proof.
  induction 1 as [| st st' rl_ids observed _ [Hn Hlen] Hcmd
                  | env st st' obs _ [Hn Hlen] Hget].
  - split; [reflexivity | simpl; lia].
  - rewrite additional_command_single in Hcmd by exact Hlen.
    injection Hcmd as <- _. simpl. split; [exact Hn |].
    pose proof (length_filter (.∈ rl_ids) (WaveAttenuationMLPLocalEnv.rl_veh st)).
    rewrite length_app, length_take. lia.
  - apply local_state_keeps_slots in Hget as (-> & -> & _). auto.
Qed.

(** With two slots the third loop would skip the successor of a removed
    id: here both vehicles have left and the second one stays. *)
Example purge_veh_skips :
  WaveAttenuationMLPLocalEnv.purge_veh 2 0 [] ["rl_0"; "rl_1"]%string
  = Ok ["rl_1"%string].
Proof. reflexivity. Qed.

(** C3: in every state that [WaveAttenuationMLPLocalEnv] can be in,
    [additional_command] returns normally and keeps the controlled set:
    [rl_veh] has at most [num_rl] elements, all of them present rl vehicles;
    a controlled id that is still present stays, so an id only leaves
    [rl_veh] once its vehicle has left the network; the queue keeps its
    order, new arrivals joining at its end, and the free slot goes to the
    oldest present queued vehicle, the later ones staying queued. *)
Theorem additional_command_controlled_set
    (st : WaveAttenuationMLPLocalEnv.state) (rl_ids : list string) :
  WaveAttenuationMLPLocalEnv.reachable st ->
  let kept := filter (.∈ rl_ids) (WaveAttenuationMLPLocalEnv.rl_veh st) in
  let queued :=
    WaveAttenuationMLPLocalEnv.enqueue_new rl_ids
      (WaveAttenuationMLPLocalEnv.rl_veh st) (WaveAttenuationMLPLocalEnv.rl_queue st) in
  let pending := filter (.∈ rl_ids) queued in
  exists st' observed,
    WaveAttenuationMLPLocalEnv.additional_command rl_ids st = Ok (st', observed) /\
    WaveAttenuationMLPLocalEnv.num_rl st' = WaveAttenuationMLPLocalEnv.num_rl st /\
    (length (WaveAttenuationMLPLocalEnv.rl_veh st')
       <= WaveAttenuationMLPLocalEnv.num_rl st')%nat /\
    (forall id, id ∈ WaveAttenuationMLPLocalEnv.rl_veh st' -> id ∈ rl_ids) /\
    (forall id, id ∈ WaveAttenuationMLPLocalEnv.rl_veh st -> id ∈ rl_ids ->
                id ∈ WaveAttenuationMLPLocalEnv.rl_veh st') /\
    (exists entered, queued = WaveAttenuationMLPLocalEnv.rl_queue st ++ entered) /\
    WaveAttenuationMLPLocalEnv.rl_veh st' =
      kept ++ take (WaveAttenuationMLPLocalEnv.num_rl st - length kept) pending /\
    WaveAttenuationMLPLocalEnv.rl_queue st' =
      drop (WaveAttenuationMLPLocalEnv.num_rl st - length kept) pending /\
    (forall next later, kept = [] -> pending = next :: later ->
       WaveAttenuationMLPLocalEnv.rl_veh st' = [next] /\
       WaveAttenuationMLPLocalEnv.rl_queue st' = later).
Proof.
  intros Hreach kept queued pending.
  destruct (reachable_single_slot st Hreach) as [Hn Hlen].
  do 2 eexists. split; [apply additional_command_single; exact Hlen |].
  simpl. fold kept queued pending.
  assert (length kept <= length (WaveAttenuationMLPLocalEnv.rl_veh st))%nat as Hkept
    by apply length_filter.
  split; [reflexivity |]. split; [rewrite length_app, length_take; lia |].
  split; [| split; [| split; [| split; [| split]]]].
  - intros id Hin. apply elem_of_app in Hin as [Hin | Hin].
    + apply list_elem_of_filter in Hin as [Hid _]. exact Hid.
    + apply elem_of_take in Hin as (j & Hj & _).
      apply list_elem_of_lookup_2, list_elem_of_filter in Hj as [Hid _]. exact Hid.
  - intros id Hin Hid. apply elem_of_app. left.
    apply list_elem_of_filter. split; assumption.
  - apply enqueue_new_app.
  - reflexivity.
  - reflexivity.
  - intros next later Hnone Hpend. rewrite Hnone, Hpend, Hn. simpl.
    rewrite take_0, drop_0. split; reflexivity.
Qed.

Lemma one_controlled_reachable : WaveAttenuationMLPLocalEnv.reachable one_controlled.
Proof.
  apply (WaveAttenuationMLPLocalEnv.reachable_additional_command
           WaveAttenuationMLPLocalEnv.init_state one_controlled
           ["rl_0"; "rl_1"]%string []).
  - apply WaveAttenuationMLPLocalEnv.reachable_init.
  - reflexivity.
Defined.

Lemma additional_command_controlled_set_witness :
  exists st' observed,
    WaveAttenuationMLPLocalEnv.additional_command ["rl_1"; "rl_2"]%string one_controlled
      = Ok (st', observed) /\
    WaveAttenuationMLPLocalEnv.rl_veh st' = ["rl_1"%string] /\
    WaveAttenuationMLPLocalEnv.rl_queue st' = ["rl_2"%string].
Proof.
  destruct (additional_command_controlled_set one_controlled ["rl_1"; "rl_2"]%string
              one_controlled_reachable)
    as (st' & observed & Hcmd & _ & _ & _ & _ & _ & _ & _ & Hnext).
  exists st', observed. split; [exact Hcmd |].
  apply (Hnext "rl_1"%string ["rl_2"%string]); reflexivity.
Defined.

(** ** Blending a fallback controller into the action *)

Section ApplyAcceleration.

Variable blend : R -> R -> R.
Variable env : Env.
Variable default_controller : list Controller.

Lemma apply_one_spec (i : nat) (vid : string) (acc : list (option R))
    (commands : list SlowDown) :
  (i < length acc)%nat -> (i < length default_controller)%nat ->
  exists acc1,
    apply_one blend env default_controller i vid (acc, commands) =
      Ok (acc1, commands ++ commanded env i [vid] acc1) /\
    length acc1 = length acc /\
    (forall j, j <> i -> acc1 !! j = acc !! j) /\
    (acc !! i = Some None -> acc1 !! i = Some None) /\
    (forall a c, acc !! i = Some (Some a) -> default_controller !! i = Some c ->
                 acc1 !! i = Some (Some (blended blend env c vid a))).
Proof.
  intros Hacc Hctrl.
  destruct (lookup_lt_is_Some_2 acc i Hacc) as [oa Hoa].
  destruct (lookup_lt_is_Some_2 default_controller i Hctrl) as [c Hc].
  unfold apply_one, index, blended. rewrite Hoa. simpl.
  destruct oa as [a |].
  - destruct (contains "rl" vid) eqn:Hrl.
    + rewrite Hc. simpl. exists (<[i:=Some (blend a (get_accel c env))]> acc).
      rewrite list_lookup_insert_eq by exact Hacc.
      rewrite app_nil_r, length_insert.
      split; [reflexivity | split; [reflexivity |]].
      split; [intros j Hj; apply list_lookup_insert_ne; congruence |].
      split; [discriminate |].
      intros a' c' Ha' Hc'. congruence.
    + simpl. exists acc. rewrite Hoa, app_nil_r.
      split; [reflexivity | split; [reflexivity |]].
      split; [reflexivity |]. split; [discriminate |].
      intros a' c' Ha' _. congruence.
  - exists acc. rewrite Hoa, !app_nil_r.
    split; [reflexivity | split; [reflexivity |]].
    split; [reflexivity |]. split; [reflexivity | discriminate].
Qed.

Lemma commanded_ext (i : nat) (veh_ids : list string) (acc acc' : list (option R)) :
  (forall j, (i <= j)%nat -> acc' !! j = acc !! j) ->
  commanded env i veh_ids acc' = commanded env i veh_ids acc.
Proof.
  revert i. induction veh_ids as [| vid veh_ids IH]; intros i Hext; simpl.
  - reflexivity.
  - rewrite Hext by lia. f_equal. apply IH. intros j Hj. apply Hext. lia.
Qed.

Lemma commanded_nonnegative (i : nat) (veh_ids : list string) (acc : list (option R)) :
  Forall (fun c => 0 <= next_vel c) (commanded env i veh_ids acc).
Proof.
  revert i. induction veh_ids as [| vid veh_ids IH]; intros i; simpl.
  - constructor.
  - apply Forall_app. split; [| apply IH].
    destruct (acc !! i) as [[a |] |]; try apply Forall_nil_2.
    apply Forall_cons_2; [simpl; apply Rmax_r | apply Forall_nil_2].
Qed.

(** The loop over [enumerate(veh_ids)], started at index [i]. *)
Lemma apply_loop_spec (veh_ids : list string) :
  forall (i : nat) (acc : list (option R)) (commands : list SlowDown),
  (i + length veh_ids <= length acc)%nat ->
  (i + length veh_ids <= length default_controller)%nat ->
  exists acc',
    for_enumerate (apply_one blend env default_controller) i veh_ids (acc, commands) =
      Ok (acc', commands ++ commanded env i veh_ids acc') /\
    length acc' = length acc /\
    (forall j, (j < i \/ i + length veh_ids <= j)%nat -> acc' !! j = acc !! j) /\
    (forall k vid, veh_ids !! k = Some vid ->
       (acc !! (i + k)%nat = Some None -> acc' !! (i + k)%nat = Some None) /\
       (forall a c, acc !! (i + k)%nat = Some (Some a) ->
                    default_controller !! (i + k)%nat = Some c ->
                    acc' !! (i + k)%nat = Some (Some (blended blend env c vid a)))).
Proof.
  induction veh_ids as [| vid veh_ids IH]; intros i acc commands Hacc Hctrl.
  - exists acc. simpl. rewrite app_nil_r.
    split; [reflexivity | split; [reflexivity |]].
    split; [reflexivity |]. intros k vid Hk. discriminate Hk.
  - simpl in Hacc, Hctrl.
    destruct (apply_one_spec i vid acc commands) as (acc1 & Hstep & Hlen1 & Hoth1 & Hnone1 & Hsome1);
      [lia | lia |].
    destruct (IH (S i) acc1 (commands ++ commanded env i [vid] acc1))
      as (acc' & Hloop & Hlen' & Hoth' & Hat'); [lia | lia |].
    exists acc'. cbn [for_enumerate]. rewrite Hstep. cbn [bind]. rewrite Hloop.
    split; [| split; [congruence | split]].
    + f_equal. f_equal. rewrite <- app_assoc. f_equal.
      simpl. rewrite app_nil_r. rewrite (Hoth' i) by lia. reflexivity.
    + intros j Hj. simpl in Hj. rewrite Hoth' by lia. apply Hoth1. lia.
    + intros k vid' Hk. destruct k as [| k].
      * injection Hk as <-. rewrite Nat.add_0_r, (Hoth' i) by lia.
        split; [exact Hnone1 | exact Hsome1].
      * simpl in Hk. destruct (Hat' k vid' Hk) as [Hnone' Hsome'].
        replace (i + S k)%nat with (S i + k)%nat by lia.
        rewrite <- (Hoth1 (S i + k)%nat) by lia.
        split; [exact Hnone' | exact Hsome'].
Qed.

End ApplyAcceleration.








(** ** Sample runs *)

Example contains_rl :
  contains "rl" "rl_0" = true /\ contains "rl" "human_0" = false /\
  contains "rl" "flow_rl_12" = true /\ contains "rl" "" = false.
Proof. repeat split; reflexivity. Qed.

Example randint_sample : randint 220 270 1234 = Ok 230%Z /\ randint 5 4 0 = Raise ValueError.
Proof. split; reflexivity. Qed.

Example check_params_sample :
  WaveAttenuationEnv.check_params (keys ADDITIONAL_ENV_PARAMS)
    (delete "ring_length"%string default_params) = Raise (KeyError "ring_length") /\
  WaveAttenuationEnv.check_params (keys ADDITIONAL_ENV_PARAMS) (∅ : gmap string pyval)
    = Raise (KeyError "max_accel").
Proof. split; reflexivity. Qed.

(** A newcomer joins the queue behind the waiting vehicle while the
    controlled one is still present. *)
Example additional_command_sample :
  WaveAttenuationMLPLocalEnv.additional_command ["rl_2"; "rl_0"; "rl_1"]%string one_controlled
  = Ok ({| WaveAttenuationMLPLocalEnv.num_rl := 1;
           WaveAttenuationMLPLocalEnv.rl_queue := ["rl_1"; "rl_2"]%string;
           WaveAttenuationMLPLocalEnv.rl_veh := ["rl_0"%string];
           WaveAttenuationMLPLocalEnv.leader := [];
           WaveAttenuationMLPLocalEnv.follower := [] |}, []).
Proof. reflexivity. Qed.

(** A strong braking action floors the target velocity at 0. *)
Example apply_acceleration_sample :
  WaveAttenuationCNNPIEnv.apply_acceleration (ring_env (fun _ => 10))
    [steady "rl_0"] ["rl_0"%string] [Some (-200)]
  = Ok ([Some (-200 + 1)],
        [ {| vid := "rl_0"%string; next_vel := 0; duration := 1 |} ]).
Proof.
  unfold WaveAttenuationCNNPIEnv.apply_acceleration, WaveAttenuationCNNPIEnv.blend.
  simpl. do 4 f_equal. apply Rmax_right. lra.
Qed.

(** The warmup reward and the reward of a smooth step at 10 m/s. *)
Example compute_reward_sample :
  compute_reward Base (ring_env (fun _ => 10)) (Some [0]) (∅ : gmap string bool)
    = Raise (KeyError "fail") /\
  compute_reward Base (ring_env (fun _ => 10)) (Some [0]) {[ "fail"%string := false ]}
    = Ok 2.
Proof.
  assert (forall kw, WaveAttenuationEnv.failed [10; 10] kw = getitem kw "fail") as Hfailed.
  { intros kw. unfold WaveAttenuationEnv.failed. simpl.
    assert (Rltb 10 (-100) = false) as ->; [| reflexivity].
    unfold Rltb. destruct (Rlt_dec 10 (-100)); [lra | reflexivity]. }
  split; simpl; unfold WaveAttenuationEnv.compute_reward; simpl; rewrite Hfailed.
  - reflexivity.
  - replace (getitem {[ "fail"%string := false ]} "fail") with (Ok false) by reflexivity.
    simpl. rewrite mean_pair.
    assert (mean [Rabs 0] = 0) as ->.
    { unfold mean, sum. simpl. rewrite Rabs_R0. field. }
    assert (Rltb 0 0 = false) as ->.
    { unfold Rltb. destruct (Rlt_dec 0 0); [lra | reflexivity]. }
    f_equal. lra.
Qed.

(** * Further properties of the code *)

(** ** Means and deviations *)

Lemma sum_bounds (l : list R) (a b : R) :
  Forall (fun x => a <= x <= b) l ->
  INR (length l) * a <= sum l <= INR (length l) * b.
Proof.
  induction 1 as [| x l [Hax Hxb] _ [IHa IHb]].
  - change (sum []) with 0. change (INR (length (@nil R))) with 0. lra.
  - change (sum (x :: l)) with (x + sum l).
    change (length (x :: l)) with (S (length l)). rewrite S_INR. lra.
Qed.

Lemma INR_length_pos {A : Type} (l : list A) : l <> [] -> 0 < INR (length l).
Proof.
  intros Hne. destruct l as [| x l]; [contradiction |].
  change (length (x :: l)) with (S (length l)). rewrite S_INR.
  pose proof (pos_INR (length l)). lra.
Qed.

Lemma mean_bounds (l : list R) (a b : R) :
  l <> [] -> Forall (fun x => a <= x <= b) l -> a <= mean l <= b.
Proof.
  intros Hne Hall. pose proof (INR_length_pos l Hne) as Hpos.
  destruct (sum_bounds l a b Hall) as [Ha Hb]. unfold mean. split.
  - apply (Rmult_le_reg_r (INR (length l))); [exact Hpos |].
    unfold Rdiv. rewrite Rmult_assoc, Rinv_l by lra. lra.
  - apply (Rmult_le_reg_r (INR (length l))); [exact Hpos |].
    unfold Rdiv. rewrite Rmult_assoc, Rinv_l by lra. lra.
Qed.

Lemma mean_abs_nonneg (l : list R) : 0 <= mean (map Rabs l).
Proof.
  destruct l as [| x l].
  - unfold mean, sum. simpl. lra.
  - apply (mean_bounds (map Rabs (x :: l)) 0 (fold_right Rmax 0 (map Rabs (x :: l)))).
    + discriminate.
    + clear. induction (x :: l) as [| y l' IH]; [constructor |].
      simpl. constructor.
      * split; [apply Rabs_pos | apply Rmax_l].
      * eapply Forall_impl; [exact IH |]. simpl. intros z [Hz0 Hz1].
        split; [exact Hz0 |]. eapply Rle_trans; [exact Hz1 | apply Rmax_r].
Qed.

Lemma std_nonneg (l : list R) : 0 <= std l.
Proof. unfold std. apply sqrt_pos. Qed.

Lemma std_bound (l : list R) (M : R) :
  l <> [] -> Forall (fun x => 0 <= x <= M) l -> std l <= M.
Proof.
  intros Hne Hall. destruct (mean_bounds l 0 M Hne Hall) as [Hm0 Hm1].
  assert (0 <= M) as HM by lra.
  unfold std. rewrite <- (sqrt_square M HM). apply sqrt_le_1_alt.
  apply (mean_bounds (map (fun x => Rsqr (Rabs (x - mean l))) l) 0 (M * M)).
  - destruct l; [contradiction | discriminate].
  - apply Forall_fmap. eapply Forall_impl; [exact Hall |].
    simpl. intros x [Hx0 Hx1]. rewrite <- Rsqr_abs. unfold Rsqr.
    assert (0 <= (M - (x - mean l)) * (M + (x - mean l))) as Hprod
      by (apply Rmult_le_pos; lra).
    split; [apply Rle_0_sqr | lra].
Qed.

Lemma mean_constant (l : list R) (v : R) :
  l <> [] -> Forall (fun x => x = v) l -> mean l = v.
Proof.
  intros Hne Hall. apply Rle_antisym.
  - apply (mean_bounds l v v Hne). eapply Forall_impl; [exact Hall |]. simpl. intros; lra.
  - apply (mean_bounds l v v Hne). eapply Forall_impl; [exact Hall |]. simpl. intros; lra.
Qed.

Lemma std_constant (l : list R) (v : R) :
  l <> [] -> Forall (fun x => x = v) l -> std l = 0.
Proof.
  intros Hne Hall. unfold std. rewrite (mean_constant l v Hne Hall).
  rewrite (mean_constant _ 0); [apply sqrt_0 | destruct l; [contradiction | discriminate] |].
  apply Forall_fmap. eapply Forall_impl; [exact Hall |]. simpl. intros x ->.
  replace (v - v) with 0 by ring. rewrite Rabs_R0. apply Rsqr_0.
Qed.

Lemma speeds_forall (env : Env) (P : R -> Prop) :
  (forall id, id ∈ get_ids (vehicles env) -> P (get_speed (vehicles env) id)) ->
  Forall P (map (get_speed (vehicles env)) (get_ids (vehicles env))).
Proof.
  intros HP. apply Forall_fmap, list.Forall_forall. intros id Hid. apply HP, Hid.
Qed.

Lemma failed_false (vel : list R) (kwargs : gmap string bool) :
  Forall (fun v => ~ v < -100) vel ->
  WaveAttenuationEnv.failed vel kwargs = getitem kwargs "fail".
Proof.
  intros Hall. unfold WaveAttenuationEnv.failed.
  destruct (existsb (fun v => Rltb v (-100)) vel) eqn:Hany; [| reflexivity].
  apply existsb_exists in Hany as (v & Hin & Hlt).
  apply Rltb_true in Hlt. apply list_elem_of_In in Hin.
  rewrite list.Forall_forall in Hall. exfalso. exact (Hall v Hin Hlt).
Qed.

(** ** Reward, beyond the failure short-circuit *)

Lemma base_reward_normal (env : Env) (acts : list R) (kwargs : gmap string bool) :
  kwargs !! "fail"%string = Some false ->
  (forall id, id ∈ get_ids (vehicles env) -> ~ get_speed (vehicles env) id < -100) ->
  let vel := map (get_speed (vehicles env)) (get_ids (vehicles env)) in
  WaveAttenuationEnv.compute_reward env (Some acts) kwargs =
    Ok (mean vel / 5 - 8 * mean (map Rabs acts)).
Proof.
  intros Hflag Hvalid vel. unfold WaveAttenuationEnv.compute_reward. fold vel.
  rewrite failed_false by (apply speeds_forall; exact Hvalid).
  unfold getitem. rewrite Hflag. simpl.
  pose proof (mean_abs_nonneg acts) as Hm.
  unfold Rltb. destruct (Rlt_dec 0 (mean (map Rabs acts))) as [Hpos | Hzero].
  - f_equal. lra.
  - f_equal. lra.
Qed.

(** X1: on a step without failure (flag false, no velocity below -100),
    with at least one vehicle and at least one action, the reward of
    [WaveAttenuationEnv] is the mean speed divided by 5 minus 8 times the
    mean absolute action, whichever branch of the threshold test is taken
    (numpy's mean of no vehicle or of no action at all is [nan], hence the
    two conditions). *)
Theorem compute_reward_formula (env : Env) (acts : list R) (kwargs : gmap string bool) :
  kwargs !! "fail"%string = Some false ->
  (forall id, id ∈ get_ids (vehicles env) -> ~ get_speed (vehicles env) id < -100) ->
  get_ids (vehicles env) <> [] ->
  acts <> [] ->
  WaveAttenuationEnv.compute_reward env (Some acts) kwargs =
    Ok (mean (map (get_speed (vehicles env)) (get_ids (vehicles env))) / 5
        - 8 * mean (map Rabs acts)).
Proof. intros Hflag Hvalid _ _. apply base_reward_normal; assumption. Qed.

Lemma compute_reward_formula_witness :
  WaveAttenuationEnv.compute_reward (ring_env (fun _ => 10)) (Some [1; -3])
    {[ "fail"%string := false ]} =
    Ok (mean (map (fun _ : string => 10) ["human_0"; "rl_0"]%string) / 5
        - 8 * mean (map Rabs [1; -3])).
Proof.
  apply (compute_reward_formula (ring_env (fun _ => 10)) [1; -3]
           {[ "fail"%string := false ]}).
  - reflexivity.
  - intros id _. simpl. lra.
  - discriminate.
  - discriminate.
Defined.

(** X2: on a step without failure the acceleration penalty never raises
    the reward: it is at most the mean speed divided by 5, hence at most
    [vmax / 5] when there is a vehicle and no speed exceeds [vmax]. *)
Theorem compute_reward_upper_bound (env : Env) (acts : list R)
    (kwargs : gmap string bool) (vmax : R) :
  kwargs !! "fail"%string = Some false ->
  get_ids (vehicles env) <> [] ->
  (forall id, id ∈ get_ids (vehicles env) ->
     -100 <= get_speed (vehicles env) id <= vmax) ->
  exists r,
    WaveAttenuationEnv.compute_reward env (Some acts) kwargs = Ok r /\
    r <= mean (map (get_speed (vehicles env)) (get_ids (vehicles env))) / 5 /\
    r <= vmax / 5.
Proof.
  intros Hflag Hne Hrange. eexists. split.
  - apply base_reward_normal; [exact Hflag |].
    intros id Hid. specialize (Hrange id Hid). lra.
  - pose proof (mean_abs_nonneg acts) as Hm.
    assert (mean (map (get_speed (vehicles env)) (get_ids (vehicles env))) <= vmax) as Hmean.
    { apply (mean_bounds _ (-100) vmax).
      - destruct (get_ids (vehicles env)); [contradiction | discriminate].
      - apply speeds_forall. exact Hrange. }
    split; lra.
Qed.

Lemma compute_reward_upper_bound_witness :
  exists r,
    WaveAttenuationEnv.compute_reward (ring_env closing_in) (Some [2])
      {[ "fail"%string := false ]} = Ok r /\
    r <= mean (map closing_in ["human_0"; "rl_0"]%string) / 5 /\
    r <= 15 / 5.
Proof.
  apply (compute_reward_upper_bound (ring_env closing_in) [2]
           {[ "fail"%string := false ]} 15).
  - reflexivity.
  - discriminate.
  - intros id _. pose proof (closing_in_range id). simpl. lra.
Defined.

Lemma invalid_speed_dec (env : Env) :
  (exists id, id ∈ get_ids (vehicles env) /\ get_speed (vehicles env) id < -100) \/
  (forall id, id ∈ get_ids (vehicles env) -> ~ get_speed (vehicles env) id < -100).
Proof.
  induction (get_ids (vehicles env)) as [| id ids IH].
  - right. intros id Hid. inversion Hid.
  - destruct (Rlt_dec (get_speed (vehicles env) id) (-100)) as [Hlt | Hge].
    + left. exists id. split; [left | exact Hlt].
    + destruct IH as [(id' & Hin & Hlt) | Hall].
      * left. exists id'. split; [right; exact Hin | exact Hlt].
      * right. intros id' Hin. apply elem_of_cons in Hin as [-> | Hin];
          [exact Hge | apply Hall; exact Hin].
Qed.

(** X3: [WaveAttenuationEnv.compute_reward] raises in one situation only:
    after the warmup, with no velocity below -100 and no ["fail"] entry in
    the keyword arguments; the exception is then the [KeyError] of that
    lookup. *)
Theorem compute_reward_raises_iff (env : Env) (rl_actions : option (list R))
    (kwargs : gmap string bool) (e : exn) :
  WaveAttenuationEnv.compute_reward env rl_actions kwargs = Raise e <->
  e = KeyError "fail" /\
  rl_actions <> None /\
  kwargs !! "fail"%string = None /\
  (forall id, id ∈ get_ids (vehicles env) -> ~ get_speed (vehicles env) id < -100).
Proof.
  split.
  - intros Hraise. destruct rl_actions as [acts |]; [| discriminate Hraise].
    destruct (invalid_speed_dec env) as [Hbad | Hvalid].
    + rewrite base_reward_after_failure in Hraise by (right; exact Hbad).
      discriminate Hraise.
    + destruct (kwargs !! "fail"%string) as [[|] |] eqn:Hflag.
      * rewrite base_reward_after_failure in Hraise by (left; exact Hflag).
        discriminate Hraise.
      * rewrite base_reward_normal in Hraise by assumption. discriminate Hraise.
      * unfold WaveAttenuationEnv.compute_reward in Hraise.
        rewrite failed_false in Hraise by (apply speeds_forall; exact Hvalid).
        unfold getitem in Hraise. rewrite Hflag in Hraise. simpl in Hraise.
        injection Hraise as <-. repeat split; [discriminate | exact Hvalid].
  - intros (-> & Hact & Hflag & Hvalid).
    destruct rl_actions as [acts |]; [| contradiction].
    unfold WaveAttenuationEnv.compute_reward.
    rewrite failed_false by (apply speeds_forall; exact Hvalid).
    unfold getitem. rewrite Hflag. reflexivity.
Qed.

(** X4: with a positive speed limit, at least one vehicle and every speed
    within [[0, max_speed]], the reward of [WaveAttenuationCNNEnv] lies in
    [[0, 1]], whatever the actions and the keyword arguments. *)
Theorem cnn_reward_unit_interval (env : Env) (rl_actions : option (list R))
    (kwargs : gmap string bool) :
  0 < scenario_max_speed env ->
  get_ids (vehicles env) <> [] ->
  speeds_in_range env (get_ids (vehicles env)) ->
  exists r,
    WaveAttenuationCNNEnv.compute_reward env rl_actions kwargs = Ok r /\
    unit_interval r.
Proof.
  intros Hmax Hne Hrange. eexists. split; [reflexivity |].
  set (speed := map (get_speed (vehicles env)) (get_ids (vehicles env))).
  assert (speed <> []) as Hne' by (subst speed; destruct (get_ids (vehicles env));
                                    [contradiction | discriminate]).
  assert (Forall (fun x => 0 <= x <= scenario_max_speed env) speed) as Hall
    by (apply speeds_forall; exact Hrange).
  destruct (mean_bounds speed 0 _ Hne' Hall) as [Hm0 Hm1].
  pose proof (std_nonneg speed) as Hs0.
  pose proof (std_bound speed _ Hne' Hall) as Hs1.
  apply div_unit_interval; [exact Hmax | lra].
Qed.

Lemma cnn_reward_unit_interval_witness :
  exists r,
    WaveAttenuationCNNEnv.compute_reward (ring_env closing_in) None fail_kwargs = Ok r /\
    unit_interval r.
Proof.
  apply (cnn_reward_unit_interval (ring_env closing_in) None fail_kwargs).
  - simpl. lra.
  - discriminate.
  - apply ring_env_speeds. intros id. pose proof (closing_in_range id). lra.
Defined.

(** X5: when every vehicle drives at the same speed [v] and the speed
    limit is not 0, the deviation term of the reward of
    [WaveAttenuationCNNEnv] vanishes and the reward is
    [0.6 * v / max_speed]. *)
Theorem cnn_reward_uniform_speed (env : Env) (rl_actions : option (list R))
    (kwargs : gmap string bool) (v : R) :
  scenario_max_speed env <> 0 ->
  get_ids (vehicles env) <> [] ->
  (forall id, id ∈ get_ids (vehicles env) -> get_speed (vehicles env) id = v) ->
  WaveAttenuationCNNEnv.compute_reward env rl_actions kwargs =
    Ok (0.6 * v / scenario_max_speed env).
Proof.
  intros _ Hne Hsame. unfold WaveAttenuationCNNEnv.compute_reward.
  set (speed := map (get_speed (vehicles env)) (get_ids (vehicles env))).
  assert (speed <> []) as Hne' by (subst speed; destruct (get_ids (vehicles env));
                                    [contradiction | discriminate]).
  assert (Forall (fun x => x = v) speed) as Hall by (apply speeds_forall; exact Hsame).
  rewrite (mean_constant speed v Hne' Hall), (std_constant speed v Hne' Hall).
  f_equal. unfold Rdiv. ring.
Qed.

Lemma cnn_reward_uniform_speed_witness :
  WaveAttenuationCNNEnv.compute_reward (ring_env (fun _ => 12)) (Some [1]) fail_kwargs =
    Ok (0.6 * 12 / 30).
Proof.
  apply (cnn_reward_uniform_speed (ring_env (fun _ => 12)) (Some [1]) fail_kwargs 12).
  - simpl. lra.
  - discriminate.
  - intros id _. reflexivity.
Defined.

(** ** Observations: errors, layout and shapes *)

Ltac bind_ok H :=
  match type of H with
  | bind ?m _ = Ok _ =>
      let E := fresh "E" in
      destruct m eqn:E; cbn [bind] in H; [| discriminate H]
  end.

Lemma truediv_ok_inv (x y q : R) : truediv x y = Ok q -> y <> 0 /\ q = x / y.
Proof.
  unfold truediv, Req_b. destruct (Req_dec_T y 0); [discriminate |].
  intros Heq. injection Heq as <-. split; [assumption | reflexivity].
Qed.

Lemma truediv_zero (x : R) : truediv x 0 = Raise ZeroDivisionError.
Proof.
  unfold truediv, Req_b. destruct (Req_dec_T 0 0); [reflexivity | contradiction].
Qed.

Lemma state_row_nonzero (env : Env) (id : string) :
  scenario_max_speed env <> 0 -> scenario_length env <> 0 ->
  WaveAttenuationEnv.state_row env id =
    Ok [get_speed (vehicles env) id / scenario_max_speed env;
        get_x_by_id env id / scenario_length env].
Proof.
  intros Hs Hl. unfold WaveAttenuationEnv.state_row.
  rewrite !truediv_nonzero by assumption. reflexivity.
Qed.

Lemma state_row_zero (env : Env) (id : string) :
  scenario_max_speed env = 0 \/ scenario_length env = 0 ->
  WaveAttenuationEnv.state_row env id = Raise ZeroDivisionError.
Proof.
  intros Hzero. unfold WaveAttenuationEnv.state_row.
  destruct (Req_dec_T (scenario_max_speed env) 0) as [Hs | Hs].
  - rewrite Hs, truediv_zero. reflexivity.
  - rewrite (truediv_nonzero _ _ Hs). cbn [bind].
    destruct Hzero as [Hz | Hz]; [contradiction |].
    rewrite Hz, truediv_zero. reflexivity.
Qed.

Lemma rows_raise_iff (env : Env) (ids : list string) (e : exn) :
  comprehension (WaveAttenuationEnv.state_row env) ids = Raise e <->
  e = ZeroDivisionError /\ ids <> [] /\
  (scenario_max_speed env = 0 \/ scenario_length env = 0).
Proof.
  destruct (Req_dec_T (scenario_max_speed env) 0) as [Hs | Hs];
    [| destruct (Req_dec_T (scenario_length env) 0) as [Hl | Hl]].
  3: { rewrite (comprehension_ok _ _ ids (fun id _ => state_row_nonzero env id Hs Hl)).
       split; [discriminate | intros (_ & _ & [Hz | Hz]); contradiction]. }
  all: destruct ids as [| id ids]; simpl;
    [split; [discriminate | intros (_ & Hne & _); contradiction] |];
    rewrite state_row_zero by auto; simpl;
    (split; [intros Heq; injection Heq as <-; repeat split; [discriminate | auto]
            | intros (-> & _); reflexivity]).
Qed.

(** X6: [get_state] of [WaveAttenuationEnv] (over [sorted_ids]) and of
    [WaveAttenuationMLPGlobalEnv] (over [get_ids()]) raise exactly when there
    is a vehicle to observe and the speed limit or the length of the
    scenario is 0; the exception is [ZeroDivisionError].  Without vehicles
    both return an empty observation. *)
Theorem get_state_raises_iff (env : Env) (e : exn) :
  (WaveAttenuationEnv.get_state env = Raise e <->
   e = ZeroDivisionError /\ sorted_ids env <> [] /\
   (scenario_max_speed env = 0 \/ scenario_length env = 0)) /\
  (WaveAttenuationMLPGlobalEnv.get_state env = Raise e <->
   e = ZeroDivisionError /\ get_ids (vehicles env) <> [] /\
   (scenario_max_speed env = 0 \/ scenario_length env = 0)).
Proof.
  split; [apply rows_raise_iff |].
  rewrite <- (rows_raise_iff env (get_ids (vehicles env)) e).
  unfold WaveAttenuationMLPGlobalEnv.get_state.
  change (WaveAttenuationMLPGlobalEnv.state_row env (scenario_max_speed env))
    with (WaveAttenuationEnv.state_row env).
  destruct (comprehension _ _) as [rows | e']; simpl; split; congruence.
Qed.

Lemma interleaved_lookup {A : Type} (f g : A -> R) (xs : list A) (k : nat) (x : A) :
  xs !! k = Some x ->
  concat (map (fun x => [f x; g x]) xs) !! (2 * k)%nat = Some (f x) /\
  concat (map (fun x => [f x; g x]) xs) !! (2 * k + 1)%nat = Some (g x).
Proof.
  revert k. induction xs as [| y xs IH]; intros k Hk; [discriminate Hk |].
  destruct k as [| k].
  - injection Hk as ->. split; reflexivity.
  - simpl in Hk. destruct (IH k Hk) as [Hf Hg].
    replace (2 * S k)%nat with (S (S (2 * k))) by lia.
    replace (S (S (2 * k)) + 1)%nat with (S (S (2 * k + 1))) by lia.
    split; assumption.
Qed.

(** X7: with non-zero normalizers the observation of
    [WaveAttenuationMLPGlobalEnv] interleaves the two quantities: for the
    [k]-th id of [get_ids()], component [2k] is its normalized speed and
    component [2k + 1] its normalized position. *)
Theorem global_get_state_layout (env : Env) :
  scenario_max_speed env <> 0 ->
  scenario_length env <> 0 ->
  exists obs,
    WaveAttenuationMLPGlobalEnv.get_state env = Ok obs /\
    forall k id, get_ids (vehicles env) !! k = Some id ->
      obs !! (2 * k)%nat = Some (get_speed (vehicles env) id / scenario_max_speed env) /\
      obs !! (2 * k + 1)%nat = Some (get_x_by_id env id / scenario_length env).
Proof.
  intros Hs Hl. unfold WaveAttenuationMLPGlobalEnv.get_state.
  change (WaveAttenuationMLPGlobalEnv.state_row env (scenario_max_speed env))
    with (WaveAttenuationEnv.state_row env).
  rewrite (comprehension_ok _ _ _ (fun id _ => state_row_nonzero env id Hs Hl)).
  eexists. split; [reflexivity |].
  intros k id Hk.
  apply (interleaved_lookup
           (fun id => get_speed (vehicles env) id / scenario_max_speed env)
           (fun id => get_x_by_id env id / scenario_length env)).
  exact Hk.
Qed.

Lemma global_get_state_layout_witness :
  exists obs,
    WaveAttenuationMLPGlobalEnv.get_state (ring_env closing_in) = Ok obs /\
    obs !! 2%nat = Some (closing_in "rl_0" / 30) /\
    obs !! 3%nat = Some (0 / 260).
Proof.
  destruct (global_get_state_layout (ring_env closing_in)) as (obs & Hget & Hat);
    [simpl; lra | simpl; lra |].
  exists obs. split; [exact Hget |].
  exact (Hat 1%nat "rl_0"%string eq_refl).
Defined.

(** X8: [WaveAttenuationPOEnv.get_state] returns exactly when there is an
    rl vehicle and [ring_length] is a list whose second entry is not 0;
    otherwise it raises ([IndexError], [KeyError], [TypeError] or
    [ZeroDivisionError]). *)
Theorem po_get_state_returns_iff (env : Env) :
  (exists obs, WaveAttenuationPOEnv.get_state env = Ok obs) <->
  (exists rl_id others ring_length max_length,
     get_rl_ids (vehicles env) = rl_id :: others /\
     additional_params env !! "ring_length"%string = Some (VList ring_length) /\
     ring_length !! 1%nat = Some max_length /\
     max_length <> 0%Z).
Proof.
  unfold WaveAttenuationPOEnv.get_state, getitem, index. split.
  - intros [obs Hget].
    destruct (get_rl_ids (vehicles env)) as [| rl_id others]; [discriminate Hget |].
    simpl in Hget.
    destruct (additional_params env !! "ring_length"%string) as [[x | xs] |];
      try discriminate Hget.
    simpl in Hget. destruct (xs !! 1%nat) as [max_length |] eqn:Hlen;
      [| discriminate Hget].
    simpl in Hget. rewrite !truediv_nonzero in Hget by lra. simpl in Hget.
    bind_ok Hget. apply truediv_ok_inv in E as [Hnz _].
    exists rl_id, others, xs, max_length.
    split; [reflexivity | split; [reflexivity | split; [exact Hlen |]]].
    intros ->. apply Hnz. reflexivity.
  - intros (rl_id & others & xs & max_length & -> & -> & Hlen & Hnz).
    simpl. rewrite Hlen. simpl.
    rewrite !truediv_nonzero; [| apply not_0_IZR; exact Hnz | lra | lra].
    simpl. eexists. reflexivity.
Qed.

Lemma po_get_state_inv (env : Env) (rl_id : string) (others : list string)
    (obs : list R) :
  get_rl_ids (vehicles env) = rl_id :: others ->
  WaveAttenuationPOEnv.get_state env = Ok obs ->
  exists max_length : Z,
    obs = [get_speed (vehicles env) rl_id / 15;
           (get_speed (vehicles env) (or_else (get_leader (vehicles env) rl_id) rl_id)
            - get_speed (vehicles env) rl_id) / 15;
           get_headway (vehicles env) rl_id / IZR max_length].
Proof.
  intros Hrl Hget. unfold WaveAttenuationPOEnv.get_state, index in Hget.
  rewrite Hrl in Hget. simpl in Hget.
  bind_ok Hget. bind_ok Hget.
  rewrite !truediv_nonzero in Hget by lra. simpl in Hget.
  bind_ok Hget. apply truediv_ok_inv in E1 as [_ ->].
  injection Hget as <-. eexists. reflexivity.
Qed.

(** X9: in the observation of [WaveAttenuationPOEnv] the sign of the second
    component tells whether the ego vehicle closes in on its leader: it is
    negative exactly when the leader is slower, 0 exactly when the speeds
    are equal, and positive exactly when the leader is faster. *)
Theorem po_relative_speed_sign (env : Env) (rl_id : string) (others : list string)
    (obs : list R) :
  get_rl_ids (vehicles env) = rl_id :: others ->
  WaveAttenuationPOEnv.get_state env = Ok obs ->
  let ego := get_speed (vehicles env) rl_id in
  let lead :=
    get_speed (vehicles env) (or_else (get_leader (vehicles env) rl_id) rl_id) in
  exists o0 o1 o2,
    obs = [o0; o1; o2] /\
    (o1 < 0 <-> lead < ego) /\ (o1 = 0 <-> lead = ego) /\ (0 < o1 <-> ego < lead).
Proof.
  intros Hrl Hget ego lead.
  destruct (po_get_state_inv env rl_id others obs Hrl Hget) as [max_length ->].
  fold ego lead. do 3 eexists. split; [reflexivity |].
  repeat split; intros H; lra.
Qed.

Lemma po_relative_speed_sign_witness :
  exists o0 o1 o2,
    [10 / 15; (5 - 10) / 15; 125 / IZR 260] = [o0; o1; o2] /\
    (o1 < 0 <-> closing_in "human_0" < closing_in "rl_0") /\
    (o1 = 0 <-> closing_in "human_0" = closing_in "rl_0") /\
    (0 < o1 <-> closing_in "rl_0" < closing_in "human_0").
Proof.
  apply (po_relative_speed_sign (ring_env closing_in) "rl_0" []).
  - reflexivity.
  - unfold WaveAttenuationPOEnv.get_state. simpl.
    replace (getitem default_params "ring_length") with (Ok (VList [260; 260]%Z))
      by reflexivity.
    replace (closing_in "rl_0") with 10 by reflexivity.
    replace (closing_in "human_0") with 5 by reflexivity.
    simpl. rewrite !truediv_nonzero by lra. reflexivity.
Defined.

Lemma setitem_ok_inv {A : Type} (l l' : list A) (i : nat) (v : A) :
  setitem l i v = Ok l' -> (i < length l)%nat /\ l' = <[i:=v]> l.
Proof.
  unfold setitem. destruct (Nat.ltb_spec i (length l)); [| discriminate].
  intros Heq. injection Heq as <-. split; [assumption | reflexivity].
Qed.

Lemma lead_view_leader (env : Env) (ms ml : R) (leader : list string) (rl_id : string) :
  (WaveAttenuationMLPLocalEnv.lead_view env ms ml leader rl_id).1.1 =
    leader ++ option_list (visible (get_leader (vehicles env) rl_id)).
Proof.
  unfold WaveAttenuationMLPLocalEnv.lead_view, visible.
  destruct (get_leader (vehicles env) rl_id) as [l |]; simpl.
  - case_bool_decide; simpl; [rewrite app_nil_r |]; reflexivity.
  - rewrite app_nil_r. reflexivity.
Qed.

Lemma follow_view_follower (env : Env) (ml : R) (follower : list string)
    (rl_id : string) :
  (WaveAttenuationMLPLocalEnv.follow_view env ml follower rl_id).1.1 =
    follower ++ option_list (visible (get_follower (vehicles env) rl_id)).
Proof.
  unfold WaveAttenuationMLPLocalEnv.follow_view, visible.
  destruct (get_follower (vehicles env) rl_id) as [f |]; simpl.
  - case_bool_decide; simpl; [rewrite app_nil_r |]; reflexivity.
  - rewrite app_nil_r. reflexivity.
Qed.

(** What one iteration of the loop of [get_state] does when it returns. *)
Lemma observe_inv (env : Env) (ms ml : R) (i : nat) (rl_id : string)
    (l f l' f' : list string) (o o' : list R) :
  WaveAttenuationMLPLocalEnv.observe env ms ml i rl_id (l, f, o) = Ok (l', f', o') ->
  length o' = length o /\ (5 * i + 4 < length o)%nat /\
  l' = l ++ option_list (visible (get_leader (vehicles env) rl_id)) /\
  f' = f ++ option_list (visible (get_follower (vehicles env) rl_id)).
Proof.
  unfold WaveAttenuationMLPLocalEnv.observe.
  pose proof (lead_view_leader env ms ml l rl_id) as Hl.
  pose proof (follow_view_follower env ml f rl_id) as Hf.
  destruct (WaveAttenuationMLPLocalEnv.lead_view env ms ml l rl_id) as [[l1 ls] lh].
  destruct (WaveAttenuationMLPLocalEnv.follow_view env ml f rl_id) as [[f1 fs] fh].
  simpl in Hl, Hf. intros Hobs.
  do 10 bind_ok Hobs. injection Hobs as <- <- <-.
  apply setitem_ok_inv in E0 as [_ ->]. apply setitem_ok_inv in E2 as [_ ->].
  apply setitem_ok_inv in E4 as [_ ->]. apply setitem_ok_inv in E6 as [_ ->].
  apply setitem_ok_inv in E8 as [Hlast ->]. rewrite !length_insert in *.
  repeat split; [exact Hlast | exact Hl | exact Hf].
Qed.

Lemma observe_loop_inv (env : Env) (ms ml : R) (rl_veh : list string) :
  forall (i : nat) (l f l' f' : list string) (o o' : list R),
  for_enumerate (WaveAttenuationMLPLocalEnv.observe env ms ml) i rl_veh (l, f, o)
    = Ok (l', f', o') ->
  length o' = length o /\
  (rl_veh <> [] -> 5 * (i + length rl_veh) <= length o)%nat /\
  l' = l ++ omap (fun id => visible (get_leader (vehicles env) id)) rl_veh /\
  f' = f ++ omap (fun id => visible (get_follower (vehicles env) id)) rl_veh.
Proof.
  induction rl_veh as [| id ids IH]; intros i l f l' f' o o' Hloop.
  - injection Hloop as <- <- <-. rewrite !app_nil_r. repeat split. contradiction.
  - cbn [for_enumerate] in Hloop. bind_ok Hloop. destruct a as [[l1 f1] o1].
    apply observe_inv in E as (Hlen1 & Hroom & -> & ->).
    apply IH in Hloop as (Hlen & Hrest & -> & ->).
    split; [congruence |]. split.
    + intros _. destruct ids as [| id' ids]; [simpl; lia |].
      simpl in *. specialize (Hrest ltac:(discriminate)). lia.
    + simpl. destruct (visible (get_leader (vehicles env) id));
        destruct (visible (get_follower (vehicles env) id)); simpl;
        rewrite <- ?app_assoc; split; reflexivity.
Qed.

Lemma local_get_state_inv (env : Env) (st st' : WaveAttenuationMLPLocalEnv.state)
    (obs : list R) :
  WaveAttenuationMLPLocalEnv.get_state env st = Ok (st', obs) ->
  length obs = (5 * WaveAttenuationMLPLocalEnv.num_rl st)%nat /\
  (length (WaveAttenuationMLPLocalEnv.rl_veh st)
     <= WaveAttenuationMLPLocalEnv.num_rl st)%nat /\
  WaveAttenuationMLPLocalEnv.leader st' =
    omap (fun id => visible (get_leader (vehicles env) id))
         (WaveAttenuationMLPLocalEnv.rl_veh st) /\
  WaveAttenuationMLPLocalEnv.follower st' =
    omap (fun id => visible (get_follower (vehicles env) id))
         (WaveAttenuationMLPLocalEnv.rl_veh st).
Proof.
  unfold WaveAttenuationMLPLocalEnv.get_state. intros Hget.
  bind_ok Hget. destruct a as [[l f] o]. injection Hget as <- <-.
  apply observe_loop_inv in E as (Hlen & Hroom & -> & ->).
  rewrite length_replicate in Hlen, Hroom. simpl.
  split; [exact Hlen |]. split; [| split; reflexivity].
  destruct (WaveAttenuationMLPLocalEnv.rl_veh st) as [| id ids]; [simpl; lia |].
  specialize (Hroom ltac:(discriminate)). lia.
Qed.

Lemma comprehension_inv {A B : Type} (f : A -> result B) (xs : list A) (ys : list B) :
  comprehension f xs = Ok ys -> Forall2 (fun x y => f x = Ok y) xs ys.
Proof.
  revert ys. induction xs as [| x xs IH]; intros ys Hc; simpl in Hc.
  - injection Hc as <-. constructor.
  - do 2 bind_ok Hc. injection Hc as <-. constructor; [exact E | apply IH; reflexivity].
Qed.

Lemma state_rows_shape (env : Env) (ids : list string) (rows : list (list R)) :
  comprehension (WaveAttenuationEnv.state_row env) ids = Ok rows ->
  length rows = length ids /\ Forall (fun row => length row = 2%nat) rows /\
  length (concat rows) = (length ids * 2)%nat.
Proof.
  intros Hc. apply comprehension_inv in Hc.
  induction Hc as [| id row ids rows Hrow _ (IHlen & IHrows & IHcat)].
  - repeat split. constructor.
  - unfold WaveAttenuationEnv.state_row in Hrow. do 2 bind_ok Hrow.
    injection Hrow as <-. simpl. rewrite IHlen.
    split; [reflexivity |]. split; [constructor; [reflexivity | exact IHrows] |].
    simpl in IHcat. rewrite IHcat. reflexivity.
Qed.

(** X10: whenever [get_state] returns, the observation has the shape that
    [observation_space] declares: three components in
    [WaveAttenuationPOEnv]; [5 * num_rl] in [WaveAttenuationMLPLocalEnv];
    [num_vehicles * 2] in [WaveAttenuationMLPGlobalEnv] when the registry
    counts the ids that it lists; and in [WaveAttenuationEnv] one row
    [[speed, position]] per vehicle where the space declares a pair of
    [num_vehicles]-vectors. *)
Theorem observation_shapes (env : Env) :
  (forall obs, WaveAttenuationPOEnv.get_state env = Ok obs ->
     shape (WaveAttenuationPOEnv.observation_space env) = [length obs]) /\
  (forall st st' obs, WaveAttenuationMLPLocalEnv.get_state env st = Ok (st', obs) ->
     shape (WaveAttenuationMLPLocalEnv.observation_space st) = [length obs]) /\
  (num_vehicles (vehicles env) = length (get_ids (vehicles env)) ->
   forall obs, WaveAttenuationMLPGlobalEnv.get_state env = Ok obs ->
     shape (WaveAttenuationMLPGlobalEnv.observation_space env) = [length obs]) /\
  (num_vehicles (vehicles env) = length (sorted_ids env) ->
   forall rows, WaveAttenuationEnv.get_state env = Ok rows ->
     shape (WaveAttenuationEnv.observation_space env).1 = [length rows] /\
     shape (WaveAttenuationEnv.observation_space env).2 = [length rows] /\
     Forall (fun row => length row = 2%nat) rows).
Proof.
  split; [| split; [| split]].
  - intros obs Hget.
    destruct (get_rl_ids (vehicles env)) as [| rl_id others] eqn:Hrl.
    + unfold WaveAttenuationPOEnv.get_state in Hget. rewrite Hrl in Hget.
      discriminate Hget.
    + destruct (po_get_state_inv env rl_id others obs Hrl Hget) as [max_length ->].
      reflexivity.
  - intros st st' obs Hget. apply local_get_state_inv in Hget as (-> & _).
    reflexivity.
  - intros Hnum obs Hget. unfold WaveAttenuationMLPGlobalEnv.get_state in Hget.
    change (WaveAttenuationMLPGlobalEnv.state_row env (scenario_max_speed env))
      with (WaveAttenuationEnv.state_row env) in Hget.
    bind_ok Hget. injection Hget as <-.
    apply state_rows_shape in E as (_ & _ & ->). simpl. rewrite Hnum. reflexivity.
  - intros Hnum rows Hget. apply state_rows_shape in Hget as (-> & Hrows & _).
    simpl. rewrite Hnum. repeat split. exact Hrows.
Qed.

Lemma observation_shapes_witness :
  shape (WaveAttenuationPOEnv.observation_space lone_env) = [3%nat].
Proof.
  apply (proj1 (observation_shapes lone_env) [6 / 15; 0; 255 / IZR 260]).
  unfold WaveAttenuationPOEnv.get_state. simpl.
  replace (getitem default_params "ring_length") with (Ok (VList [260; 260]%Z))
    by reflexivity.
  simpl. rewrite !truediv_nonzero by lra. simpl.
  do 2 f_equal. f_equal. lra.
Defined.

Lemma observe_nonzero (env : Env) (i : nat) (rl_id : string)
    (l f : list string) (o : list R) :
  scenario_max_speed env <> 0 -> scenario_length env <> 0 ->
  (5 * i + 4 < length o)%nat ->
  exists l' f' o',
    WaveAttenuationMLPLocalEnv.observe env (scenario_max_speed env)
      (scenario_length env) i rl_id (l, f, o) = Ok (l', f', o') /\
    length o' = length o.
Proof.
  intros Hs Hl Hi. unfold WaveAttenuationMLPLocalEnv.observe.
  destruct (WaveAttenuationMLPLocalEnv.lead_view _ _ _ _ _) as [[l1 ls] lh].
  destruct (WaveAttenuationMLPLocalEnv.follow_view _ _ _ _) as [[f1 fs] fh].
  rewrite !truediv_nonzero by assumption. simpl.
  repeat (rewrite setitem_ok by (rewrite ?length_insert; lia); simpl).
  do 3 eexists. split; [reflexivity |]. rewrite !length_insert. reflexivity.
Qed.

Lemma observe_no_room (env : Env) (i : nat) (rl_id : string)
    (l f : list string) (o : list R) :
  scenario_max_speed env <> 0 ->
  (length o <= 5 * i)%nat ->
  WaveAttenuationMLPLocalEnv.observe env (scenario_max_speed env)
    (scenario_length env) i rl_id (l, f, o) = Raise IndexError.
Proof.
  intros Hs Hi. unfold WaveAttenuationMLPLocalEnv.observe.
  destruct (WaveAttenuationMLPLocalEnv.lead_view _ _ _ _ _) as [[l1 ls] lh].
  destruct (WaveAttenuationMLPLocalEnv.follow_view _ _ _ _) as [[f1 fs] fh].
  rewrite truediv_nonzero by assumption. cbn [bind].
  unfold setitem. destruct (Nat.ltb_spec (5 * i + 0) (length o)); [lia | reflexivity].
Qed.

Lemma observe_loop_overflow (env : Env) (n : nat) (rl_veh : list string) :
  scenario_max_speed env <> 0 -> scenario_length env <> 0 ->
  forall (i : nat) (l f : list string) (o : list R),
  length o = (5 * n)%nat -> (i <= n)%nat -> (n < i + length rl_veh)%nat ->
  for_enumerate
    (WaveAttenuationMLPLocalEnv.observe env (scenario_max_speed env)
       (scenario_length env)) i rl_veh (l, f, o) = Raise IndexError.
Proof.
  intros Hs Hl. induction rl_veh as [| id ids IH]; intros i l f o Hlen Hi Hover.
  - simpl in Hover. lia.
  - cbn [for_enumerate]. destruct (decide (i = n)) as [-> | Hne].
    + rewrite observe_no_room by (assumption || lia). reflexivity.
    + destruct (observe_nonzero env i id l f o Hs Hl) as (l' & f' & o' & Hstep & Hlen');
        [lia |].
      rewrite Hstep. cbn [bind]. apply IH; [congruence | lia | simpl in Hover; lia].
Qed.

(** X11: [WaveAttenuationMLPLocalEnv.get_state] has room for [num_rl]
    vehicles only: it returns only if [rl_veh] has at most [num_rl] entries,
    and with non-zero normalizers and more entries than that it raises
    [IndexError] when it stores the first component of the vehicle in
    excess. *)
Theorem local_get_state_overflow (env : Env) (st : WaveAttenuationMLPLocalEnv.state) :
  scenario_max_speed env <> 0 ->
  scenario_length env <> 0 ->
  ((WaveAttenuationMLPLocalEnv.num_rl st
      < length (WaveAttenuationMLPLocalEnv.rl_veh st))%nat ->
   WaveAttenuationMLPLocalEnv.get_state env st = Raise IndexError) /\
  ((length (WaveAttenuationMLPLocalEnv.rl_veh st)
      <= WaveAttenuationMLPLocalEnv.num_rl st)%nat ->
   exists st' obs, WaveAttenuationMLPLocalEnv.get_state env st = Ok (st', obs)).
Proof.
  intros Hs Hl. split.
  - intros Hover. unfold WaveAttenuationMLPLocalEnv.get_state.
    rewrite (observe_loop_overflow env (WaveAttenuationMLPLocalEnv.num_rl st));
      [reflexivity | assumption | assumption | apply length_replicate | lia | lia].
  - intros Hroom. unfold WaveAttenuationMLPLocalEnv.get_state.
    assert (forall ids i l f o,
              (5 * (i + length ids) <= length o)%nat ->
              exists r, for_enumerate
                (WaveAttenuationMLPLocalEnv.observe env (scenario_max_speed env)
                   (scenario_length env)) i ids (l, f, o) = Ok r) as Hloop.
    { induction ids as [| id ids IH]; intros i l f o Hlen.
      - eexists. reflexivity.
      - simpl in Hlen.
        destruct (observe_nonzero env i id l f o Hs Hl) as (l' & f' & o' & Hstep & Hlen');
          [lia |].
        cbn [for_enumerate]. rewrite Hstep. cbn [bind]. apply IH. lia. }
    destruct (Hloop (WaveAttenuationMLPLocalEnv.rl_veh st) 0%nat [] []
                (replicate (5 * WaveAttenuationMLPLocalEnv.num_rl st) 0))
      as [[[l f] o] Hrun]; [rewrite length_replicate; lia |].
    rewrite Hrun. simpl. do 2 eexists. reflexivity.
Qed.

Lemma local_get_state_overflow_witness :
  WaveAttenuationMLPLocalEnv.get_state (ring_env closing_in) overfull = Raise IndexError /\
  exists st' obs,
    WaveAttenuationMLPLocalEnv.get_state (ring_env closing_in) one_controlled
      = Ok (st', obs).
Proof.
  assert (scenario_max_speed (ring_env closing_in) <> 0) as Hs by (simpl; lra).
  assert (scenario_length (ring_env closing_in) <> 0) as Hl by (simpl; lra).
  split.
  - apply (local_get_state_overflow (ring_env closing_in) overfull Hs Hl). simpl. lia.
  - apply (local_get_state_overflow (ring_env closing_in) one_controlled Hs Hl).
    simpl. lia.
Defined.

(** X12: in [WaveAttenuationMLPLocalEnv], the vehicles that
    [additional_command] marks as observed after a [get_state] are exactly
    the visible leaders, then the visible followers, of the controlled
    vehicles that this [get_state] looked at; what earlier calls had recorded
    is forgotten. *)
Theorem local_observed_neighbours (env : Env)
    (st st1 : WaveAttenuationMLPLocalEnv.state) (obs : list R) (rl_ids : list string) :
  WaveAttenuationMLPLocalEnv.reachable st ->
  WaveAttenuationMLPLocalEnv.get_state env st = Ok (st1, obs) ->
  exists st2,
    WaveAttenuationMLPLocalEnv.additional_command rl_ids st1 =
      Ok (st2,
          omap (fun id => visible (get_leader (vehicles env) id))
               (WaveAttenuationMLPLocalEnv.rl_veh st)
          ++ omap (fun id => visible (get_follower (vehicles env) id))
               (WaveAttenuationMLPLocalEnv.rl_veh st)).
Proof.
  intros Hreach Hget.
  assert (WaveAttenuationMLPLocalEnv.reachable st1) as Hreach1
    by (eapply WaveAttenuationMLPLocalEnv.reachable_get_state; eassumption).
  destruct (reachable_single_slot st1 Hreach1) as [_ Hlen].
  rewrite additional_command_single by exact Hlen.
  apply local_get_state_inv in Hget as (_ & _ & -> & ->).
  eexists. reflexivity.
Qed.

Lemma one_controlled_in_range : local_in_range (ring_env closing_in) "rl_0".
Proof.
  unfold local_in_range. simpl.
  replace (closing_in "rl_0") with 10 by reflexivity.
  split; [lra |]. split.
  - intros l Hl _. injection Hl as <-.
    replace (closing_in "human_0") with 5 by reflexivity.
    repeat case_bool_decide; try discriminate; lra.
  - intros f Hf _. injection Hf as <-.
    replace (closing_in "human_0") with 5 by reflexivity. lra.
Qed.

Lemma local_observed_neighbours_witness :
  exists st1 obs st2,
    WaveAttenuationMLPLocalEnv.get_state (ring_env closing_in) one_controlled
      = Ok (st1, obs) /\
    WaveAttenuationMLPLocalEnv.additional_command ["rl_0"; "rl_1"]%string st1 =
      Ok (st2, ["human_0"; "human_0"]%string).
Proof.
  destruct (local_state_ranges (ring_env closing_in) one_controlled)
    as (st1 & obs & Hget & _); [simpl; lra | simpl; lra | simpl; lia | |].
  - intros id Hid. apply list_elem_of_singleton in Hid as ->.
    exact one_controlled_in_range.
  - exists st1, obs.
    destruct (local_observed_neighbours (ring_env closing_in) one_controlled st1 obs
                ["rl_0"; "rl_1"]%string one_controlled_reachable Hget) as [st2 Hcmd].
    exists st2. split; [exact Hget | exact Hcmd].
Defined.

(** ** The bookkeeping of WaveAttenuationMLPLocalEnv, in any state *)

Section Bookkeeping.

Import WaveAttenuationMLPLocalEnv.

Variable rl_ids : list string.

Lemma filter_all (l : list string) :
  Forall (.∈ rl_ids) l -> filter (.∈ rl_ids) l = l.
Proof.
  induction 1 as [| x l Hx _ IH]; [reflexivity |].
  rewrite filter_cons_True by exact Hx. rewrite IH. reflexivity.
Qed.

Lemma filter_present (l : list string) : Forall (.∈ rl_ids) (filter (.∈ rl_ids) l).
Proof.
  apply list.Forall_forall. intros x Hx.
  apply list_elem_of_filter in Hx as [Hx _]. exact Hx.
Qed.

(** Removing an id that is in the list succeeds; it shortens the list and
    leaves the ids that a filter keeps when the filter rejects that id. *)
Lemma remove_elem (x : string) (l : list string) :
  x ∈ l ->
  exists l', remove x l = Ok l' /\ l' `sublist_of` l /\
             (x ∉ rl_ids -> filter (.∈ rl_ids) l' = filter (.∈ rl_ids) l).
Proof.
  induction l as [| y l IH]; intros Hin; [inversion Hin |].
  simpl. case_bool_decide as Hyx.
  - subst y. exists l. split; [reflexivity |]. split; [apply sublist_cons; reflexivity |].
    intros Hout. rewrite filter_cons_False by exact Hout. reflexivity.
  - apply elem_of_cons in Hin as [-> | Hin]; [contradiction |].
    destruct (IH Hin) as (l' & -> & Hsub & Hfilter). simpl.
    exists (y :: l'). split; [reflexivity |]. split; [apply sublist_skip; exact Hsub |].
    intros Hout. rewrite !filter_cons, (Hfilter Hout). reflexivity.
Qed.

(** The third loop, whatever the number of slots: it never raises, only
    drops ids, and drops no present id. *)
Lemma purge_veh_general (fuel : nat) :
  forall (i : nat) (veh : list string),
  exists l, purge_veh fuel i rl_ids veh = Ok l /\ l `sublist_of` veh /\
            filter (.∈ rl_ids) l = filter (.∈ rl_ids) veh.
Proof.
  induction fuel as [| fuel IH]; intros i veh; simpl.
  - exists veh. repeat split; reflexivity.
  - destruct (veh !! i) as [id |] eqn:Hi; [| exists veh; repeat split; reflexivity].
    case_bool_decide as Hid; [apply IH |].
    destruct (remove_elem id veh) as (l1 & -> & Hsub1 & Hf1);
      [eapply list_elem_of_lookup_2; exact Hi |].
    simpl. destruct (IH (S i) l1) as (l & Hrun & Hsub & Hf).
    exists l. split; [exact Hrun |].
    split; [etransitivity; eassumption | rewrite Hf; apply Hf1; exact Hid].
Qed.

Lemma enqueue_new_covers (ids veh queue : list string) (id : string) :
  id ∈ ids -> id ∈ enqueue_new ids veh queue ++ veh.
Proof.
  revert queue. induction ids as [| x ids IH]; intros queue Hin; [inversion Hin |].
  simpl. apply elem_of_cons in Hin as [-> | Hin].
  - case_bool_decide as Hx.
    + destruct (enqueue_new_app ids veh queue) as [entered ->].
      apply elem_of_app in Hx as [Hx | Hx]; set_solver.
    + destruct (enqueue_new_app ids veh (queue ++ [x])) as [entered ->]. set_solver.
  - case_bool_decide; apply IH; exact Hin.
Qed.

Lemma enqueue_new_noop (ids veh queue : list string) :
  (forall id, id ∈ ids -> id ∈ queue ++ veh) -> enqueue_new ids veh queue = queue.
Proof.
  induction ids as [| x ids IH]; intros Hall; [reflexivity |].
  simpl. rewrite bool_decide_eq_true_2 by (apply Hall; left).
  apply IH. intros id Hid. apply Hall. right. exact Hid.
Qed.

Lemma enqueue_new_nodup (ids veh queue : list string) :
  NoDup (queue ++ veh) -> NoDup (enqueue_new ids veh queue ++ veh).
Proof.
  revert queue. induction ids as [| x ids IH]; intros queue Hnd; [exact Hnd |].
  simpl. case_bool_decide as Hx; [apply IH; exact Hnd |].
  apply IH. rewrite <- app_assoc. simpl.
  apply NoDup_app in Hnd as (Hq & Hdisj & Hv).
  apply NoDup_app. split; [exact Hq |]. split.
  - intros y Hy Hy'. apply elem_of_cons in Hy' as [-> | Hy'].
    + apply Hx, elem_of_app. left. exact Hy.
    + exact (Hdisj y Hy Hy').
  - apply NoDup_cons. split; [| exact Hv].
    intros Hxv. apply Hx, elem_of_app. right. exact Hxv.
Qed.

(** [additional_command] in closed form, for any number of slots. *)
Lemma additional_command_general (st : state) :
  exists v2,
    v2 `sublist_of` rl_veh st /\
    filter (.∈ rl_ids) v2 = filter (.∈ rl_ids) (rl_veh st) /\
    let pending := filter (.∈ rl_ids) (enqueue_new rl_ids (rl_veh st) (rl_queue st)) in
    additional_command rl_ids st =
      Ok ({| num_rl := num_rl st;
             rl_queue := drop (num_rl st - length v2) pending;
             rl_veh := v2 ++ take (num_rl st - length v2) pending;
             leader := leader st; follower := follower st |},
          leader st ++ follower st).
Proof.
  destruct (purge_veh_general (length (rl_veh st)) 0 (rl_veh st)) as (v2 & Hrun & Hsub & Hf).
  exists v2. split; [exact Hsub |]. split; [exact Hf |].
  intros pending. unfold additional_command.
  pose proof (purge_queue_filter rl_ids []
                (enqueue_new rl_ids (rl_veh st) (rl_queue st)) (Forall_nil_2 _)) as Hq.
  simpl in Hq. rewrite Hq. simpl. rewrite Hrun. simpl.
  rewrite fill_slots_take_drop. reflexivity.
Qed.

End Bookkeeping.

(** X13: [WaveAttenuationMLPLocalEnv.additional_command] returns normally
    from any attribute values and for any list of rl ids: none of its
    [remove] calls can raise [ValueError].  It leaves [num_rl] alone, marks
    as observed the recorded leaders and followers, and leaves in [rl_veh]
    no more ids than the larger of its previous size and [num_rl]. *)
Theorem additional_command_never_raises
    (st : WaveAttenuationMLPLocalEnv.state) (rl_ids : list string) :
  exists st' observed,
    WaveAttenuationMLPLocalEnv.additional_command rl_ids st = Ok (st', observed) /\
    WaveAttenuationMLPLocalEnv.num_rl st' = WaveAttenuationMLPLocalEnv.num_rl st /\
    observed = WaveAttenuationMLPLocalEnv.leader st
               ++ WaveAttenuationMLPLocalEnv.follower st /\
    (length (WaveAttenuationMLPLocalEnv.rl_veh st')
       <= Nat.max (length (WaveAttenuationMLPLocalEnv.rl_veh st))
                  (WaveAttenuationMLPLocalEnv.num_rl st))%nat.
Proof.
  destruct (additional_command_general rl_ids st) as (v2 & Hsub & _ & Hcmd).
  do 2 eexists. split; [exact Hcmd |]. simpl.
  split; [reflexivity |]. split; [reflexivity |].
  apply sublist_length in Hsub. rewrite length_app, length_take. lia.
Qed.

(** Every rl id in the network is in the controlled set or in the queue
    that the closed form of [additional_command] describes. *)
Lemma tracked_after_command (st : WaveAttenuationMLPLocalEnv.state)
    (rl_ids v2 : list string) (k : nat) (id : string) :
  filter (.∈ rl_ids) v2 = filter (.∈ rl_ids) (WaveAttenuationMLPLocalEnv.rl_veh st) ->
  id ∈ rl_ids ->
  let pending :=
    filter (.∈ rl_ids)
      (WaveAttenuationMLPLocalEnv.enqueue_new rl_ids
         (WaveAttenuationMLPLocalEnv.rl_veh st)
         (WaveAttenuationMLPLocalEnv.rl_queue st)) in
  id ∈ v2 ++ take k pending \/ id ∈ drop k pending.
Proof.
  intros Hkept Hid pending.
  pose proof (enqueue_new_covers rl_ids (WaveAttenuationMLPLocalEnv.rl_veh st)
                (WaveAttenuationMLPLocalEnv.rl_queue st) id Hid) as Hcov.
  apply elem_of_app in Hcov as [Hq | Hv].
  - assert (id ∈ pending) as Hpend
      by (apply list_elem_of_filter; split; assumption).
    rewrite <- (take_drop k) in Hpend.
    apply elem_of_app in Hpend as [Htake | Hdrop]; [left | right; exact Hdrop].
    apply elem_of_app. right. exact Htake.
  - left. apply elem_of_app. left.
    assert (id ∈ filter (.∈ rl_ids) v2) as Hin
      by (rewrite Hkept; apply list_elem_of_filter; split; assumption).
    apply list_elem_of_filter in Hin as [_ Hin]. exact Hin.
Qed.

(** X14: after [additional_command], whatever the attributes were before,
    every rl vehicle in the network is either controlled or queued, and the
    queue holds only rl vehicles that are in the network. *)
Theorem additional_command_tracks_all
    (st : WaveAttenuationMLPLocalEnv.state) (rl_ids : list string) :
  exists st' observed,
    WaveAttenuationMLPLocalEnv.additional_command rl_ids st = Ok (st', observed) /\
    (forall id, id ∈ rl_ids ->
       id ∈ WaveAttenuationMLPLocalEnv.rl_veh st' \/
       id ∈ WaveAttenuationMLPLocalEnv.rl_queue st') /\
    (forall id, id ∈ WaveAttenuationMLPLocalEnv.rl_queue st' -> id ∈ rl_ids).
Proof.
  destruct (additional_command_general rl_ids st) as (v2 & Hsub & Hkept & Hcmd).
  do 2 eexists. split; [exact Hcmd |]. simpl. split.
  - intros id Hid. apply tracked_after_command; assumption.
  - intros id Hin. apply subseteq_drop, list_elem_of_filter in Hin as [Hid _].
    exact Hid.
Qed.

(** X15: in every state that [WaveAttenuationMLPLocalEnv] can be in, no
    vehicle is both controlled and queued, or controlled or queued twice,
    even if the registry lists an id more than once. *)
Theorem reachable_no_duplicates (st : WaveAttenuationMLPLocalEnv.state) :
  WaveAttenuationMLPLocalEnv.reachable st ->
  NoDup (WaveAttenuationMLPLocalEnv.rl_veh st ++ WaveAttenuationMLPLocalEnv.rl_queue st).
Proof.
  induction 1 as [| st st' rl_ids observed Hreach IH Hcmd
                  | env st st' obs _ IH Hget].
  - constructor.
  - destruct (reachable_single_slot st Hreach) as [_ Hlen].
    rewrite additional_command_single in Hcmd by exact Hlen.
    injection Hcmd as <- _. simpl.
    rewrite <- app_assoc, take_drop, <- filter_app. apply NoDup_filter.
    rewrite Permutation_app_comm. apply enqueue_new_nodup.
    rewrite Permutation_app_comm. exact IH.
  - apply local_state_keeps_slots in Hget as (_ & -> & ->). exact IH.
Qed.

Lemma reachable_no_duplicates_witness :
  NoDup (WaveAttenuationMLPLocalEnv.rl_veh one_controlled
         ++ WaveAttenuationMLPLocalEnv.rl_queue one_controlled).
Proof. apply reachable_no_duplicates. exact one_controlled_reachable. Defined.

(** X16: while the rl vehicles in the network stay the same,
    [additional_command] changes nothing more: run again with the same ids
    on the attributes that it has just produced, it returns the same
    attributes, so the controlled set and the queue are stable. *)
Theorem additional_command_stable
    (st st' : WaveAttenuationMLPLocalEnv.state) (rl_ids observed : list string) :
  WaveAttenuationMLPLocalEnv.reachable st ->
  WaveAttenuationMLPLocalEnv.additional_command rl_ids st = Ok (st', observed) ->
  WaveAttenuationMLPLocalEnv.additional_command rl_ids st' = Ok (st', observed).
Proof.
  intros Hreach Hcmd.
  assert (WaveAttenuationMLPLocalEnv.reachable st') as Hreach'
    by (eapply WaveAttenuationMLPLocalEnv.reachable_additional_command; eassumption).
  destruct (reachable_single_slot st Hreach) as [Hn Hlen].
  destruct (reachable_single_slot st' Hreach') as [Hn' Hlen'].
  rewrite additional_command_single by exact Hlen'.
  assert (Forall (.∈ rl_ids) (WaveAttenuationMLPLocalEnv.rl_veh st') /\
          Forall (.∈ rl_ids) (WaveAttenuationMLPLocalEnv.rl_queue st') /\
          forall id, id ∈ rl_ids ->
            id ∈ WaveAttenuationMLPLocalEnv.rl_queue st'
                 ++ WaveAttenuationMLPLocalEnv.rl_veh st') as (Hveh & Hqueue & Hcov).
  { pose proof Hcmd as Hcmd2.
    rewrite additional_command_single in Hcmd2 by exact Hlen.
    injection Hcmd2 as <- _. simpl. split; [| split].
    - apply Forall_app. split; [apply filter_present |].
      apply Forall_take, filter_present.
    - apply Forall_drop, filter_present.
    - intros id Hid. apply elem_of_app.
      destruct (tracked_after_command st rl_ids
                  (filter (.∈ rl_ids) (WaveAttenuationMLPLocalEnv.rl_veh st))
                  (WaveAttenuationMLPLocalEnv.num_rl st
                   - length (filter (.∈ rl_ids) (WaveAttenuationMLPLocalEnv.rl_veh st)))
                  id (filter_all rl_ids _ (filter_present rl_ids _)) Hid); auto. }
  rewrite enqueue_new_noop by exact Hcov.
  rewrite !filter_all by assumption.
  assert (observed = WaveAttenuationMLPLocalEnv.leader st'
                     ++ WaveAttenuationMLPLocalEnv.follower st') as ->.
  { rewrite additional_command_single in Hcmd by exact Hlen.
    injection Hcmd as <- <-. reflexivity. }
  assert (take (WaveAttenuationMLPLocalEnv.num_rl st'
                - length (WaveAttenuationMLPLocalEnv.rl_veh st'))
               (WaveAttenuationMLPLocalEnv.rl_queue st') = [] /\
          drop (WaveAttenuationMLPLocalEnv.num_rl st'
                - length (WaveAttenuationMLPLocalEnv.rl_veh st'))
               (WaveAttenuationMLPLocalEnv.rl_queue st')
          = WaveAttenuationMLPLocalEnv.rl_queue st') as [-> ->].
  { rewrite additional_command_single in Hcmd by exact Hlen.
    injection Hcmd as <- _. simpl. rewrite Hn.
    set (kept := filter (.∈ rl_ids) (WaveAttenuationMLPLocalEnv.rl_veh st)).
    set (pending := filter (.∈ rl_ids) _).
    rewrite length_app, length_take.
    destruct (Nat.le_gt_cases (1 - length kept) (length pending)) as [Hfull | Hshort].
    - assert (length kept <= 1)%nat
        by (pose proof (length_filter (.∈ rl_ids) (WaveAttenuationMLPLocalEnv.rl_veh st));
            subst kept; lia).
      replace (1 - (length kept + (1 - length kept) `min` length pending))%nat
        with 0%nat by lia.
      split; reflexivity.
    - rewrite (drop_ge pending) by lia. rewrite take_nil, drop_nil. split; reflexivity. }
  rewrite app_nil_r. destruct st'. reflexivity.
Qed.

Lemma additional_command_stable_witness :
  WaveAttenuationMLPLocalEnv.additional_command ["rl_1"; "rl_2"]%string
    {| WaveAttenuationMLPLocalEnv.num_rl := 1;
       WaveAttenuationMLPLocalEnv.rl_queue := ["rl_2"%string];
       WaveAttenuationMLPLocalEnv.rl_veh := ["rl_1"%string];
       WaveAttenuationMLPLocalEnv.leader := [];
       WaveAttenuationMLPLocalEnv.follower := [] |}
  = Ok ({| WaveAttenuationMLPLocalEnv.num_rl := 1;
           WaveAttenuationMLPLocalEnv.rl_queue := ["rl_2"%string];
           WaveAttenuationMLPLocalEnv.rl_veh := ["rl_1"%string];
           WaveAttenuationMLPLocalEnv.leader := [];
           WaveAttenuationMLPLocalEnv.follower := [] |}, []).
Proof.
  apply (additional_command_stable one_controlled _ ["rl_1"; "rl_2"]%string []).
  - exact one_controlled_reachable.
  - reflexivity.
Defined.

(** ** More on the blended accelerations *)

Lemma clip_bounds (x lo hi : R) : lo <= hi -> lo <= clip x lo hi <= hi.
Proof.
  intros Hle. unfold clip, Rmin, Rmax.
  destruct (Rle_dec x lo); destruct (Rle_dec _ hi); lra.
Qed.

Section ApplyAccelerationErrors.

Variable blend : R -> R -> R.
Variable env : Env.
Variable default_controller : list Controller.

(** One iteration either raises [IndexError] or keeps the length of [acc]. *)
Lemma apply_one_cases (i : nat) (vid : string) (acc : list (option R))
    (commands : list SlowDown) :
  apply_one blend env default_controller i vid (acc, commands) = Raise IndexError \/
  exists acc1 commands1,
    apply_one blend env default_controller i vid (acc, commands) = Ok (acc1, commands1) /\
    length acc1 = length acc /\ (i < length acc)%nat.
Proof.
  unfold apply_one, index.
  destruct (acc !! i) as [[a |] |] eqn:Hi; simpl; [| | left; reflexivity].
  - apply lookup_lt_Some in Hi.
    destruct (contains "rl" vid).
    + destruct (default_controller !! i) as [c |]; simpl; [| left; reflexivity].
      right. do 2 eexists. split; [reflexivity |]. rewrite length_insert. auto.
    + simpl. right. do 2 eexists. split; [reflexivity | auto].
  - apply lookup_lt_Some in Hi. right. do 2 eexists. split; [reflexivity | auto].
Qed.

Lemma apply_loop_too_few_actions (veh_ids : list string) :
  forall (i : nat) (acc : list (option R)) (commands : list SlowDown),
  (i <= length acc)%nat -> (length acc < i + length veh_ids)%nat ->
  for_enumerate (apply_one blend env default_controller) i veh_ids (acc, commands)
    = Raise IndexError.
Proof.
  induction veh_ids as [| vid veh_ids IH]; intros i acc commands Hi Hshort.
  - simpl in Hshort. lia.
  - cbn [for_enumerate].
    destruct (apply_one_cases i vid acc commands)
      as [-> | (acc1 & commands1 & -> & Hlen & Hroom)]; [reflexivity |].
    cbn [bind]. apply IH; simpl in Hshort; lia.
Qed.

(** Ids without "rl" in them never reach the controllers. *)
Lemma apply_loop_no_rl (veh_ids : list string) :
  Forall (fun vid => contains "rl" vid = false) veh_ids ->
  forall (i : nat) (acc : list (option R)) (commands : list SlowDown),
  (i + length veh_ids <= length acc)%nat ->
  for_enumerate (apply_one blend env default_controller) i veh_ids (acc, commands)
    = Ok (acc, commands ++ commanded env i veh_ids acc).
Proof.
  induction 1 as [| vid veh_ids Hvid _ IH]; intros i acc commands Hlen.
  - simpl. rewrite app_nil_r. reflexivity.
  - simpl in Hlen. cbn [for_enumerate commanded].
    destruct (lookup_lt_is_Some_2 acc i ltac:(lia)) as [oa Hoa].
    unfold apply_one at 1. unfold index. rewrite Hoa. cbn [bind].
    destruct oa as [a |].
    + rewrite Hvid. cbn [bind]. cbv iota beta. rewrite IH by lia.
      rewrite <- app_assoc. reflexivity.
    + cbn [bind]. rewrite IH by lia. reflexivity.
Qed.

Lemma commanded_vids (i : nat) (veh_ids : list string) (acc : list (option R)) :
  map vid (commanded env i veh_ids acc) `sublist_of` veh_ids.
Proof.
  revert i. induction veh_ids as [| v veh_ids IH]; intros i; simpl.
  - reflexivity.
  - destruct (acc !! i) as [[a |] |]; simpl.
    + apply sublist_skip, IH.
    + apply sublist_cons, IH.
    + apply sublist_cons, IH.
Qed.

End ApplyAccelerationErrors.

(** X17: both overrides of [apply_acceleration] raise [IndexError] when
    there are fewer actions than vehicle ids, whatever the controllers. *)
Theorem apply_acceleration_too_few_actions (env : Env)
    (default_controller : list Controller) (veh_ids : list string)
    (acc : list (option R)) :
  (length acc < length veh_ids)%nat ->
  WaveAttenuationCNNIDMEnv.apply_acceleration env default_controller veh_ids acc
    = Raise IndexError /\
  WaveAttenuationCNNPIEnv.apply_acceleration env default_controller veh_ids acc
    = Raise IndexError.
Proof.
  intros Hshort. split; apply apply_loop_too_few_actions; lia.
Qed.

Lemma apply_acceleration_too_few_actions_witness :
  WaveAttenuationCNNIDMEnv.apply_acceleration (ring_env (fun _ => 10))
    [steady "rl_0"; steady "human_0"] ["rl_0"; "human_0"]%string [Some 1]
    = Raise IndexError /\
  WaveAttenuationCNNPIEnv.apply_acceleration (ring_env (fun _ => 10))
    [steady "rl_0"; steady "human_0"] ["rl_0"; "human_0"]%string [Some 1]
    = Raise IndexError.
Proof.
  apply (apply_acceleration_too_few_actions (ring_env (fun _ => 10))
           [steady "rl_0"; steady "human_0"] ["rl_0"; "human_0"]%string [Some 1]).
  simpl. lia.
Defined.

(** X18: for vehicle ids none of which contains "rl", both overrides of
    [apply_acceleration] leave the actions as they are and consult no
    controller: they return normally even without any, and command each
    vehicle with an action to [max(speed + action * sim_step, 0)]. *)
Theorem apply_acceleration_without_rl (env : Env)
    (default_controller : list Controller) (veh_ids : list string)
    (acc : list (option R)) :
  Forall (fun vid => contains "rl" vid = false) veh_ids ->
  (length veh_ids <= length acc)%nat ->
  WaveAttenuationCNNIDMEnv.apply_acceleration env default_controller veh_ids acc
    = Ok (acc, commanded env 0 veh_ids acc) /\
  WaveAttenuationCNNPIEnv.apply_acceleration env default_controller veh_ids acc
    = Ok (acc, commanded env 0 veh_ids acc).
Proof.
  intros Hnone Hlen.
  split; apply (apply_loop_no_rl _ env default_controller veh_ids Hnone 0 acc []); lia.
Qed.

Lemma apply_acceleration_without_rl_witness :
  WaveAttenuationCNNIDMEnv.apply_acceleration (ring_env (fun _ => 10)) []
    ["human_0"; "human_1"]%string [Some 1; None]
    = Ok ([Some 1; None],
          commanded (ring_env (fun _ => 10)) 0 ["human_0"; "human_1"]%string
            [Some 1; None]) /\
  WaveAttenuationCNNPIEnv.apply_acceleration (ring_env (fun _ => 10)) []
    ["human_0"; "human_1"]%string [Some 1; None]
    = Ok ([Some 1; None],
          commanded (ring_env (fun _ => 10)) 0 ["human_0"; "human_1"]%string
            [Some 1; None]).
Proof.
  apply (apply_acceleration_without_rl (ring_env (fun _ => 10)) []
           ["human_0"; "human_1"]%string [Some 1; None]).
  - repeat constructor.
  - simpl. lia.
Defined.

(** X19: in [WaveAttenuationCNNIDMEnv.apply_acceleration] the policy can move
    the acceleration applied to an rl vehicle only within a window around
    half of the controller's acceleration [d]: the result lies in
    [[0.5 * d - 2.5, 0.5 * d + 1.5]] whatever the action is, and within
    [[-5, 3]] when [d] does. *)
Theorem idm_blend_window (env : Env) (default_controller : list Controller)
    (veh_ids : list string) (acc : list (option R)) :
  (length veh_ids <= length acc)%nat ->
  (length veh_ids <= length default_controller)%nat ->
  exists acc' commands,
    WaveAttenuationCNNIDMEnv.apply_acceleration env default_controller veh_ids acc =
      Ok (acc', commands) /\
    forall k vid c a',
      veh_ids !! k = Some vid ->
      contains "rl" vid = true ->
      default_controller !! k = Some c ->
      acc' !! k = Some (Some a') ->
      0.5 * get_accel c env - 2.5 <= a' <= 0.5 * get_accel c env + 1.5 /\
      (-5 <= get_accel c env <= 3 -> -5 <= a' <= 3).
Proof.
  intros Hacc Hctrl.
  destruct (apply_loop_spec WaveAttenuationCNNIDMEnv.blend env default_controller
              veh_ids 0 acc []) as (acc' & Hloop & _ & _ & Hat); [lia | lia |].
  exists acc', (commanded env 0 veh_ids acc'). split; [exact Hloop |].
  intros k vid c a' Hk Hrl Hc Ha'.
  destruct (Hat k vid Hk) as [Hnone Hsome]. simpl in Hnone, Hsome.
  assert (k < length acc)%nat as Hlt by (apply lookup_lt_Some in Hk; lia).
  destruct (lookup_lt_is_Some_2 acc k Hlt) as [[a |] Hoa].
  - rewrite (Hsome a c Hoa Hc) in Ha'. injection Ha' as <-.
    unfold blended, WaveAttenuationCNNIDMEnv.blend. rewrite Hrl.
    pose proof (clip_bounds a (-5) 3 ltac:(lra)). lra.
  - rewrite (Hnone Hoa) in Ha'. discriminate Ha'.
Qed.

Lemma idm_blend_window_witness :
  exists acc' commands,
    WaveAttenuationCNNIDMEnv.apply_acceleration (ring_env (fun _ => 10))
      [steady "rl_0"] ["rl_0"%string] [Some 1000] = Ok (acc', commands) /\
    forall a', acc' !! 0%nat = Some (Some a') -> -5 <= a' <= 3.
Proof.
  destruct (idm_blend_window (ring_env (fun _ => 10)) [steady "rl_0"]
              ["rl_0"%string] [Some 1000])
    as (acc' & commands & Hrun & Hwin); [simpl; lia | simpl; lia |].
  exists acc', commands. split; [exact Hrun |].
  intros a' Ha'.
  apply (Hwin 0%nat "rl_0"%string (steady "rl_0") a' eq_refl eq_refl eq_refl Ha').
  simpl. lra.
Defined.



(** X21: through the inherited [_apply_rl_actions], both overrides command
    rl vehicles only, in the order of [sorted_ids], and never to a negative
    speed. *)
Theorem apply_rl_actions_targets (env : Env) (default_controller : list Controller)
    (rl_actions : list (option R)) :
  (length (WaveAttenuationEnv.sorted_rl_ids env) <= length rl_actions)%nat ->
  (length (WaveAttenuationEnv.sorted_rl_ids env) <= length default_controller)%nat ->
  (exists acc' commands,
     WaveAttenuationCNNIDMEnv.apply_rl_actions env default_controller rl_actions =
       Ok (acc', commands) /\
     map vid commands `sublist_of` sorted_ids env /\
     Forall (fun c => vid c ∈ get_rl_ids (vehicles env) /\ 0 <= next_vel c) commands) /\
  (exists acc' commands,
     WaveAttenuationCNNPIEnv.apply_rl_actions env default_controller rl_actions =
       Ok (acc', commands) /\
     map vid commands `sublist_of` sorted_ids env /\
     Forall (fun c => vid c ∈ get_rl_ids (vehicles env) /\ 0 <= next_vel c) commands).
Proof.
  intros Hacc Hctrl.
  assert (forall acc',
            map vid (commanded env 0 (WaveAttenuationEnv.sorted_rl_ids env) acc')
              `sublist_of` sorted_ids env /\
            Forall (fun c => vid c ∈ get_rl_ids (vehicles env) /\ 0 <= next_vel c)
              (commanded env 0 (WaveAttenuationEnv.sorted_rl_ids env) acc')) as Hcmds.
  { intros acc'.
    pose proof (commanded_vids env 0 (WaveAttenuationEnv.sorted_rl_ids env) acc') as Hsub.
    split.
    - etransitivity; [exact Hsub |]. apply sublist_filter.
    - pose proof (commanded_nonnegative env 0 (WaveAttenuationEnv.sorted_rl_ids env) acc')
        as Hpos.
      rewrite list.Forall_forall in Hpos. apply list.Forall_forall. intros c Hc.
      split; [| apply Hpos; exact Hc].
      assert (vid c ∈ WaveAttenuationEnv.sorted_rl_ids env) as Hin.
      { eapply sublist_subseteq; [exact Hsub |].
        apply list_elem_of_fmap. exists c. split; [reflexivity | exact Hc]. }
      apply list_elem_of_filter in Hin as [Hrl _]. exact Hrl. }
  split.
  - destruct (apply_loop_spec WaveAttenuationCNNIDMEnv.blend env default_controller
                (WaveAttenuationEnv.sorted_rl_ids env) 0 rl_actions [])
      as (acc' & Hloop & _); [lia | lia |].
    exists acc', (commanded env 0 (WaveAttenuationEnv.sorted_rl_ids env) acc').
    split; [exact Hloop | apply Hcmds].
  - destruct (apply_loop_spec WaveAttenuationCNNPIEnv.blend env default_controller
                (WaveAttenuationEnv.sorted_rl_ids env) 0 rl_actions [])
      as (acc' & Hloop & _); [lia | lia |].
    exists acc', (commanded env 0 (WaveAttenuationEnv.sorted_rl_ids env) acc').
    split; [exact Hloop | apply Hcmds].
Qed.

Lemma sorted_rl_ids_ring : 
  WaveAttenuationEnv.sorted_rl_ids (ring_env (fun _ => 10)) = ["rl_0"%string].
Proof. reflexivity. Qed.

Lemma apply_rl_actions_targets_witness :
  exists acc' commands,
    WaveAttenuationCNNIDMEnv.apply_rl_actions (ring_env (fun _ => 10))
      [steady "rl_0"] [Some 1] = Ok (acc', commands) /\
    map vid commands `sublist_of` ["human_0"; "rl_0"]%string /\
    Forall (fun c => vid c ∈ ["rl_0"%string] /\ 0 <= next_vel c) commands.
Proof.
  apply (apply_rl_actions_targets (ring_env (fun _ => 10)) [steady "rl_0"] [Some 1]);
    rewrite sorted_rl_ids_ring; simpl; lia.
Defined.

(** ** Construction, action space and reset, continued *)

Lemma check_params_raise_iff (ps : list string) (additional_params : gmap string pyval)
    (e : exn) :
  WaveAttenuationEnv.check_params ps additional_params = Raise e <->
  exists before p after,
    ps = before ++ p :: after /\ e = KeyError p /\
    additional_params !! p = None /\
    Forall (fun q => additional_params !! q <> None) before.
Proof.
  induction ps as [| q ps IH]; simpl.
  - split; [discriminate |]. intros (before & p & after & Heq & _).
    destruct before; discriminate Heq.
  - case_bool_decide as Hq.
    + split.
      * intros Heq. injection Heq as <-. exists [], q, ps. repeat split; [exact Hq | constructor].
      * intros (before & p & after & Heq & -> & Hnone & Hbefore).
        destruct before as [| b before]; simpl in Heq; injection Heq as -> ->.
        -- reflexivity.
        -- apply Forall_cons_1 in Hbefore as [Hb _]. contradiction.
    + rewrite IH. split.
      * intros (before & p & after & -> & -> & Hnone & Hbefore).
        exists (q :: before), p, after. repeat split; [exact Hnone |].
        constructor; assumption.
      * intros (before & p & after & Heq & -> & Hnone & Hbefore).
        destruct before as [| b before]; simpl in Heq; injection Heq as -> ->.
        -- contradiction.
        -- apply Forall_cons_1 in Hbefore as [_ Hbefore].
           exists before, p, after. repeat split; assumption.
Qed.

(** X22: when the external base constructor succeeds, the constructor of
    every class raises [KeyError] for a key [p] exactly when [p] is the
    first of "max_accel", "max_decel", "ring_length", in this order, that is
    absent from [additional_params]; later absent keys are not reported,
    and it raises nothing else. *)
Theorem init_reports_first_missing (v : variant)
    (additional_params : gmap string pyval) (e : exn) :
  init v additional_params (Ok tt) = Raise e <->
  exists before p after,
    ["max_accel"; "max_decel"; "ring_length"]%string = before ++ p :: after /\
    e = KeyError p /\
    additional_params !! p = None /\
    Forall (fun q => additional_params !! q <> None) before.
Proof.
  rewrite init_unfold.
  rewrite <- (check_params_raise_iff (keys ADDITIONAL_ENV_PARAMS) additional_params e).
  destruct (WaveAttenuationEnv.check_params _ _) as [[] | e']; simpl.
  - split; discriminate.
  - reflexivity.
Qed.

(** X23: the sign given to [max_decel] does not matter to the action
    space, and the lower bound of the box is never positive: no class can be
    configured so that braking is excluded. *)
Theorem action_space_decel_sign (v : variant) (env : Env) (max_decel : R) :
  additional_params env !! "max_decel"%string = Some (VNum max_decel) ->
  action_space v
    (with_additional_params env
       (<["max_decel"%string := VNum (- max_decel)]> (additional_params env)))
    = action_space v env /\
  forall box, action_space v env = Ok box -> low box <= 0.
Proof.
  intros Hd. unfold action_space, WaveAttenuationEnv.action_space, getitem. simpl.
  rewrite lookup_insert_eq, lookup_insert_ne by discriminate. rewrite Hd. simpl.
  destruct (additional_params env !! "max_accel"%string) as [[a | xs] |]; simpl.
  - rewrite Rabs_Ropp. split; [reflexivity |].
    intros box Hbox. injection Hbox as <-. simpl. pose proof (Rabs_pos max_decel). lra.
  - split; [reflexivity | discriminate].
  - split; [reflexivity | discriminate].
Qed.

Lemma action_space_decel_sign_witness :
  action_space PO
    (with_additional_params (ring_env (fun _ => 10))
       (<["max_decel"%string := VNum (- 5)]> default_params))
    = action_space PO (ring_env (fun _ => 10)) /\
  forall box, action_space PO (ring_env (fun _ => 10)) = Ok box -> low box <= 0.
Proof.
  apply (action_space_decel_sign PO (ring_env (fun _ => 10)) 5). reflexivity.
Defined.

(** X24: [reset] returns network parameters exactly when [ring_length] is a
    list whose first two entries are in non-decreasing order; the lanes,
    the speed limit and the resolution of the new network are always 1, 30
    and 40; and when the two bounds coincide the length is that bound for
    every draw. *)
Theorem reset_returns_iff (env : Env) (rnd : Z) :
  ((exists net, WaveAttenuationEnv.reset env rnd = Ok net) <->
   exists ring_length lo hi,
     additional_params env !! "ring_length"%string = Some (VList ring_length) /\
     ring_length !! 0%nat = Some lo /\ ring_length !! 1%nat = Some hi /\
     (lo <= hi)%Z) /\
  (forall net, WaveAttenuationEnv.reset env rnd = Ok net ->
     lanes net = 1%Z /\ speed_limit net = 30%Z /\ resolution net = 40%Z /\
     forall ring_length bound,
       additional_params env !! "ring_length"%string = Some (VList ring_length) ->
       ring_length !! 0%nat = Some bound -> ring_length !! 1%nat = Some bound ->
       length_ net = bound).
Proof.
  unfold WaveAttenuationEnv.reset, getitem, index. split; [split |].
  - intros [net Hnet].
    destruct (additional_params env !! "ring_length"%string) as [[x | xs] |];
      try discriminate Hnet.
    simpl in Hnet. destruct (xs !! 0%nat) as [lo |] eqn:Hlo; [| discriminate Hnet].
    destruct (xs !! 1%nat) as [hi |] eqn:Hhi; [| discriminate Hnet].
    simpl in Hnet. exists xs, lo, hi.
    split; [reflexivity | split; [exact Hlo | split; [exact Hhi |]]].
    destruct (Z_le_gt_dec lo hi) as [Hle | Hgt]; [exact Hle |].
    rewrite randint_empty in Hnet by lia. discriminate Hnet.
  - intros (xs & lo & hi & -> & Hlo & Hhi & Hle). simpl. rewrite Hlo, Hhi. simpl.
    destruct (randint_range lo hi rnd Hle) as (n & -> & _). simpl. eexists. reflexivity.
  - intros net Hnet.
    destruct (additional_params env !! "ring_length"%string) as [[x | xs] |];
      try discriminate Hnet.
    simpl in Hnet. destruct (xs !! 0%nat) as [lo |] eqn:Hlo; [| discriminate Hnet].
    destruct (xs !! 1%nat) as [hi |] eqn:Hhi; [| discriminate Hnet].
    simpl in Hnet. bind_ok Hnet. injection Hnet as <-. simpl.
    repeat split. intros ring_length bound Hrl Hb0 Hb1.
    injection Hrl as <-. rewrite Hlo in Hb0. rewrite Hhi in Hb1.
    injection Hb0 as ->. injection Hb1 as ->.
    destruct (randint_range bound bound rnd ltac:(lia)) as (n & Hn & Hrange).
    rewrite Hn in E. injection E as <-. lia.
Qed.

Lemma reset_returns_iff_witness :
  exists net, WaveAttenuationEnv.reset (ring_env (fun _ => 10)) 12345 = Ok net.
Proof.
  apply (proj1 (reset_returns_iff (ring_env (fun _ => 10)) 12345)).
  exists [260; 260]%Z, 260%Z, 260%Z.
  split; [reflexivity | split; [reflexivity | split; [reflexivity | lia]]].
Defined.

(** ** The equilibrium equation solved by [reset] *)

(** The gap that the car-following law asks for at speed [v], the function
    of [v] that [v_eq_max_function] subtracts from the available gap. *)
Lemma desired_gap_increasing (v1 v2 : R) :
  0 <= v1 -> v1 < v2 -> v2 < 30 ->
  (2 + v1 * 1) * / sqrt (1 - (v1 / 30) ^ 4) < (2 + v2 * 1) * / sqrt (1 - (v2 / 30) ^ 4).
Proof.
  intros H0 H12 H30.
  set (x1 := v1 / 30). set (x2 := v2 / 30).
  assert (0 <= x1 /\ x1 < x2 /\ x2 < 1) as (Hx0 & Hx12 & Hx1) by (unfold x1, x2; lra).
  assert (x1 ^ 4 < x2 ^ 4) as Hpow.
  { simpl. assert (x1 * x1 < x2 * x2) by nra.
    assert (0 <= x1 * x1) by nra. nra. }
  assert (x2 ^ 4 < 1) as Hpow1.
  { simpl. assert (x2 * x2 < 1) by nra. assert (0 <= x2 * x2) by nra. nra. }
  assert (0 < sqrt (1 - x2 ^ 4)) as Hs2 by (apply sqrt_lt_R0; lra).
  assert (sqrt (1 - x2 ^ 4) < sqrt (1 - x1 ^ 4)) as Hs12 by (apply sqrt_lt_1_alt; lra).
  assert (/ sqrt (1 - x1 ^ 4) < / sqrt (1 - x2 ^ 4)) as Hinv
    by (apply Rinv_lt_contravar; [apply Rmult_lt_0_compat; lra | exact Hs12]).
  assert (0 < / sqrt (1 - x1 ^ 4)) as Hpos by (apply Rinv_0_lt_compat; lra).
  apply Rmult_le_0_lt_compat; lra.
Qed.

Lemma v_eq_max_function_ok (env : Env) (v : R) :
  num_vehicles (vehicles env) <> 1%nat ->
  exists s_eq_max,
    forall v, WaveAttenuationEnv.v_eq_max_function env v =
              Ok (s_eq_max - (2 + v * 1) * / sqrt (1 - (v / 30) ^ 4)).
Proof.
  intros Hn. unfold WaveAttenuationEnv.v_eq_max_function.
  rewrite truediv_nonzero; [eexists; intros; reflexivity |].
  apply not_0_IZR. lia.
Qed.

(** X25: with a number of vehicles other than 1, the error that
    [v_eq_max_function] returns decreases strictly with the speed on
    [[0, 30)], so the equation that [reset] hands to [fsolve] has at most
    one solution there. *)
Theorem v_eq_max_function_decreasing (env : Env) (v1 v2 : R) :
  num_vehicles (vehicles env) <> 1%nat ->
  0 <= v1 -> v1 < v2 -> v2 < 30 ->
  exists e1 e2,
    WaveAttenuationEnv.v_eq_max_function env v1 = Ok e1 /\
    WaveAttenuationEnv.v_eq_max_function env v2 = Ok e2 /\
    e2 < e1 /\ ~ (e1 = 0 /\ e2 = 0).
Proof.
  intros Hn H0 H12 H30.
  destruct (v_eq_max_function_ok env v1 Hn) as [s Hs].
  do 2 eexists. split; [apply Hs |]. split; [apply Hs |].
  pose proof (desired_gap_increasing v1 v2 H0 H12 H30) as Hgap.
  split; [lra | intros [He1 He2]; lra].
Qed.

Lemma v_eq_max_function_decreasing_witness :
  exists e1 e2,
    WaveAttenuationEnv.v_eq_max_function (ring_env (fun _ => 10)) 4 = Ok e1 /\
    WaveAttenuationEnv.v_eq_max_function (ring_env (fun _ => 10)) 5 = Ok e2 /\
    e2 < e1 /\ ~ (e1 = 0 /\ e2 = 0).
Proof.
  apply (v_eq_max_function_decreasing (ring_env (fun _ => 10)) 4 5);
    [simpl; lia | lra | lra | lra].
Defined.

(** X26: [v_eq_max_function] raises exactly when the network holds a single
    vehicle, for every speed: the gap per other vehicle is then a division
    by 0, a [ZeroDivisionError]. *)
Theorem v_eq_max_function_raises_iff (env : Env) (v : R) (e : exn) :
  WaveAttenuationEnv.v_eq_max_function env v = Raise e <->
  e = ZeroDivisionError /\ num_vehicles (vehicles env) = 1%nat.
Proof.
  destruct (decide (num_vehicles (vehicles env) = 1%nat)) as [Hone | Hn].
  - unfold WaveAttenuationEnv.v_eq_max_function. rewrite Hone. simpl.
    rewrite truediv_zero. simpl. split.
    + intros Heq. injection Heq as <-. split; reflexivity.
    + intros [-> _]. reflexivity.
  - destruct (v_eq_max_function_ok env v Hn) as [s Hs]. rewrite Hs.
    split; [discriminate | intros [_ Hone]; contradiction].
Qed.

(** ** The observed vehicle of WaveAttenuationPOEnv and WaveAttenuationCNNEnv *)

(** X27: whenever [WaveAttenuationPOEnv.get_state] returns,
    [additional_command] (the same code in [WaveAttenuationCNNEnv]) marks as
    observed the one vehicle whose speed the observation compares with the
    ego vehicle's: its leader, or the ego vehicle itself when no leader is
    visible. *)
Theorem po_observed_vehicle (env : Env) (obs : list R) :
  WaveAttenuationPOEnv.get_state env = Ok obs ->
  exists rl_id lead_id,
    WaveAttenuationPOEnv.additional_command env = Ok [lead_id] /\
    WaveAttenuationCNNEnv.additional_command env = Ok [lead_id] /\
    head (get_rl_ids (vehicles env)) = Some rl_id /\
    (visible (get_leader (vehicles env) rl_id) = Some lead_id \/
     visible (get_leader (vehicles env) rl_id) = None /\ lead_id = rl_id) /\
    obs !! 1%nat =
      Some ((get_speed (vehicles env) lead_id - get_speed (vehicles env) rl_id) / 15).
Proof.
  intros Hget.
  destruct (get_rl_ids (vehicles env)) as [| rl_id others] eqn:Hrl.
  - unfold WaveAttenuationPOEnv.get_state in Hget. rewrite Hrl in Hget.
    discriminate Hget.
  - destruct (po_get_state_inv env rl_id others obs Hrl Hget) as [max_length ->].
    exists rl_id, (or_else (get_leader (vehicles env) rl_id) rl_id).
    unfold WaveAttenuationPOEnv.additional_command,
      WaveAttenuationCNNEnv.additional_command, index.
    rewrite Hrl. simpl.
    split; [reflexivity |]. split; [reflexivity |]. split; [reflexivity |].
    split; [| reflexivity].
    unfold or_else, visible.
    destruct (get_leader (vehicles env) rl_id) as [l |]; [| right; split; reflexivity].
    destruct (falsy (Some l)); [right; split; reflexivity | left; reflexivity].
Qed.

Lemma po_observed_vehicle_witness :
  exists rl_id lead_id,
    WaveAttenuationPOEnv.additional_command lone_env = Ok [lead_id] /\
    WaveAttenuationCNNEnv.additional_command lone_env = Ok [lead_id] /\
    head (get_rl_ids (vehicles lone_env)) = Some rl_id /\
    (visible (get_leader (vehicles lone_env) rl_id) = Some lead_id \/
     visible (get_leader (vehicles lone_env) rl_id) = None /\ lead_id = rl_id) /\
    [6 / 15; 0; 255 / IZR 260] !! 1%nat =
      Some ((get_speed (vehicles lone_env) lead_id
             - get_speed (vehicles lone_env) rl_id) / 15).
Proof.
  apply (po_observed_vehicle lone_env [6 / 15; 0; 255 / IZR 260]).
  unfold WaveAttenuationPOEnv.get_state. simpl.
  replace (getitem default_params "ring_length") with (Ok (VList [260; 260]%Z))
    by reflexivity.
  simpl. rewrite !truediv_nonzero by lra. simpl.
  do 2 f_equal. f_equal. lra.
Defined.

(** ** Controllers are matched by position *)

Lemma sorted_rl_ids_length (env : Env) :
  NoDup (sorted_ids env) ->
  (length (WaveAttenuationEnv.sorted_rl_ids env)
     <= length (get_rl_ids (vehicles env)))%nat.
Proof.
  intros Hnd. apply submseteq_length, NoDup_submseteq.
  - apply NoDup_filter. exact Hnd.
  - intros id Hid. apply list_elem_of_filter in Hid as [Hid _]. exact Hid.
Qed.

(** X28: with the controllers that the constructors build and an unchanged
    registry, [_apply_rl_actions] finds a controller for every rl vehicle of
    a duplicate-free [sorted_ids], but it pairs them by position: the
    acceleration of the [k]-th sorted rl vehicle is blended with the
    controller built for the [k]-th id of [get_rl_ids()], whichever vehicle
    that is. *)
Theorem controllers_matched_by_position (env : Env)
    (IDMController PISaturation : string -> Controller) (rl_actions : list (option R)) :
  NoDup (sorted_ids env) ->
  (length (WaveAttenuationEnv.sorted_rl_ids env) <= length rl_actions)%nat ->
  (exists acc' commands,
     WaveAttenuationCNNIDMEnv.apply_rl_actions env
       (WaveAttenuationCNNIDMEnv.default_controller IDMController env) rl_actions
       = Ok (acc', commands) /\
     forall k vid a,
       WaveAttenuationEnv.sorted_rl_ids env !! k = Some vid ->
       rl_actions !! k = Some (Some a) ->
       exists built_for,
         get_rl_ids (vehicles env) !! k = Some built_for /\
         acc' !! k =
           Some (Some (if contains "rl" vid
                       then 0.5 * clip a (-5) 3
                            + 0.5 * get_accel (IDMController built_for) env
                       else a))) /\
  (exists acc' commands,
     WaveAttenuationCNNPIEnv.apply_rl_actions env
       (WaveAttenuationCNNPIEnv.default_controller PISaturation env) rl_actions
       = Ok (acc', commands) /\
     forall k vid a,
       WaveAttenuationEnv.sorted_rl_ids env !! k = Some vid ->
       rl_actions !! k = Some (Some a) ->
       exists built_for,
         get_rl_ids (vehicles env) !! k = Some built_for /\
         acc' !! k =
           Some (Some (if contains "rl" vid
                       then a + get_accel (PISaturation built_for) env
                       else a))).
Proof.
  intros Hnd Hacc. pose proof (sorted_rl_ids_length env Hnd) as Hlen.
  assert (forall k vid, WaveAttenuationEnv.sorted_rl_ids env !! k = Some vid ->
            exists built_for, get_rl_ids (vehicles env) !! k = Some built_for) as Hbuilt.
  { intros k vid Hk. apply lookup_lt_Some in Hk.
    apply lookup_lt_is_Some_2. lia. }
  split.
  - destruct (apply_loop_spec WaveAttenuationCNNIDMEnv.blend env
                (WaveAttenuationCNNIDMEnv.default_controller IDMController env)
                (WaveAttenuationEnv.sorted_rl_ids env) 0 rl_actions [])
      as (acc' & Hloop & _ & _ & Hat);
      [lia | unfold WaveAttenuationCNNIDMEnv.default_controller;
             rewrite length_map; simpl; lia |].
    do 2 eexists. split; [exact Hloop |].
    intros k vid a Hk Ha. destruct (Hbuilt k vid Hk) as [built_for Hb].
    exists built_for. split; [exact Hb |].
    apply (proj2 (Hat k vid Hk) a (IDMController built_for) Ha).
    unfold WaveAttenuationCNNIDMEnv.default_controller. simpl.
    rewrite list_lookup_fmap, Hb. reflexivity.
  - destruct (apply_loop_spec WaveAttenuationCNNPIEnv.blend env
                (WaveAttenuationCNNPIEnv.default_controller PISaturation env)
                (WaveAttenuationEnv.sorted_rl_ids env) 0 rl_actions [])
      as (acc' & Hloop & _ & _ & Hat);
      [lia | unfold WaveAttenuationCNNPIEnv.default_controller;
             rewrite length_map; simpl; lia |].
    do 2 eexists. split; [exact Hloop |].
    intros k vid a Hk Ha. destruct (Hbuilt k vid Hk) as [built_for Hb].
    exists built_for. split; [exact Hb |].
    apply (proj2 (Hat k vid Hk) a (PISaturation built_for) Ha).
    unfold WaveAttenuationCNNPIEnv.default_controller. simpl.
    rewrite list_lookup_fmap, Hb. reflexivity.
Qed.

Lemma ring_sorted_ids_nodup : NoDup (sorted_ids (ring_env (fun _ => 10))).
Proof.
  simpl. apply NoDup_cons. split.
  - intros Hin. apply list_elem_of_singleton in Hin. discriminate Hin.
  - apply NoDup_singleton.
Qed.

Lemma controllers_matched_by_position_witness :
  exists acc' commands,
    WaveAttenuationCNNPIEnv.apply_rl_actions (ring_env (fun _ => 10))
      (WaveAttenuationCNNPIEnv.default_controller steady (ring_env (fun _ => 10)))
      [Some 2] = Ok (acc', commands) /\
    acc' !! 0%nat = Some (Some (2 + 1)).
Proof.
  destruct (controllers_matched_by_position (ring_env (fun _ => 10)) steady steady
              [Some 2] ring_sorted_ids_nodup)
    as [_ (acc' & commands & Hrun & Hat)];
    [rewrite sorted_rl_ids_ring; simpl; lia |].
  exists acc', commands. split; [exact Hrun |].
  destruct (Hat 0%nat "rl_0"%string 2 eq_refl eq_refl) as (built_for & Hb & Hacc').
  injection Hb as <-. exact Hacc'.
Defined.

(** ** Defaults of the local observation *)

(** X29: when the single controlled vehicle of [WaveAttenuationMLPLocalEnv]
    sees neither a leader nor a follower, the observation stands for a
    leader at the speed limit and a stopped follower, each a full ring
    away: it is [[s; 1 - s; 1; s; 1]] for the normalized speed [s], and no
    vehicle is recorded for display. *)
Theorem local_get_state_nobody_visible (env : Env)
    (st : WaveAttenuationMLPLocalEnv.state) (rl_id : string) :
  scenario_max_speed env <> 0 ->
  scenario_length env <> 0 ->
  WaveAttenuationMLPLocalEnv.num_rl st = 1%nat ->
  WaveAttenuationMLPLocalEnv.rl_veh st = [rl_id] ->
  visible (get_leader (vehicles env) rl_id) = None ->
  visible (get_follower (vehicles env) rl_id) = None ->
  let s := get_speed (vehicles env) rl_id / scenario_max_speed env in
  exists st',
    WaveAttenuationMLPLocalEnv.get_state env st = Ok (st', [s; 1 - s; 1; s; 1]) /\
    WaveAttenuationMLPLocalEnv.leader st' = [] /\
    WaveAttenuationMLPLocalEnv.follower st' = [] /\
    WaveAttenuationMLPLocalEnv.rl_veh st' = [rl_id].
Proof.
  intros Hs Hl Hn Hveh Hlead Hfollow s.
  unfold WaveAttenuationMLPLocalEnv.get_state. rewrite Hn, Hveh.
  cbn [for_enumerate]. unfold WaveAttenuationMLPLocalEnv.observe.
  assert (WaveAttenuationMLPLocalEnv.lead_view env (scenario_max_speed env)
            (scenario_length env) [] rl_id
          = ([], scenario_max_speed env, scenario_length env)) as ->.
  { unfold WaveAttenuationMLPLocalEnv.lead_view. unfold visible in Hlead.
    destruct (get_leader (vehicles env) rl_id) as [l |]; [| reflexivity].
    destruct (falsy (Some l)); [reflexivity | discriminate Hlead]. }
  assert (WaveAttenuationMLPLocalEnv.follow_view env (scenario_length env) [] rl_id
          = ([], 0, scenario_length env)) as ->.
  { unfold WaveAttenuationMLPLocalEnv.follow_view. unfold visible in Hfollow.
    destruct (get_follower (vehicles env) rl_id) as [f |]; [| reflexivity].
    destruct (falsy (Some f)); [reflexivity | discriminate Hfollow]. }
  rewrite !truediv_nonzero by assumption. simpl.
  assert ((scenario_max_speed env - get_speed (vehicles env) rl_id)
            / scenario_max_speed env = 1 - s) as -> by (unfold s; field; exact Hs).
  assert (scenario_length env / scenario_length env = 1) as -> by (field; exact Hl).
  assert ((get_speed (vehicles env) rl_id - 0) / scenario_max_speed env = s) as ->
    by (unfold s; field; exact Hs).
  fold s. eexists. split; [reflexivity |].
  split; [reflexivity | split; reflexivity].
Qed.

Lemma local_get_state_nobody_visible_witness :
  exists st',
    WaveAttenuationMLPLocalEnv.get_state lone_env one_controlled
      = Ok (st', [6 / 30; 1 - 6 / 30; 1; 6 / 30; 1]) /\
    WaveAttenuationMLPLocalEnv.leader st' = [] /\
    WaveAttenuationMLPLocalEnv.follower st' = [] /\
    WaveAttenuationMLPLocalEnv.rl_veh st' = ["rl_0"%string].
Proof.
  apply (local_get_state_nobody_visible lone_env one_controlled "rl_0");
    try reflexivity; simpl; lra.
Defined.

(** Two frames of two rows of two intensities: the frame index moves last. *)
Example moveaxis_sample :
  moveaxis_first_to_last [[[1; 2]; [3; 4]]; [[5; 6]; [7; 8]]]%Z
  = [[[1; 5]; [2; 6]]; [[3; 7]; [4; 8]]]%Z.
Proof. reflexivity. Qed.
